(** * The video relay bot of [app/main.py]: model and properties

    The bot watches chat messages for a URL, hands the URL to an extraction
    backend (yt-dlp), checks the size of the file it produced and sends it
    back as a video, falling back to a document upload.

    Modelling choices.
    - A message text, and a URL taken from it, is a Python [str] of any
      content: a list of code points ([str]).  Whitespace, the case folding
      of the regular expression and [str.lower] are those of Python on such
      a text, inside and outside ASCII.
    - The texts the program writes itself (replies, log lines), the values
      of the environment and header values are byte strings ([string], the
      literals of the replies being UTF-8); on these the model folds case
      and strips whitespace as Python does on ASCII text.
    - [bytes_to_mb] is a float division by 2^20.  It is exact for every size
      below 2^53 bytes and Python compares a float with an int exactly, so
      the model computes with rationals ([Q]).
    - The transport, the logger, the network, the extraction backend and the
      file system are outside the program: the model takes their answers from
      an environment and records every call in a trace. *)

From Stdlib Require Import ZArith QArith Qabs Ascii String List Bool Lia.
From stdpp Require Import base option list gmap strings pretty.

(** ** Strings *)

Module Str.

Definition is_upper (c : ascii) : bool :=
  let n := N_of_ascii c in ((65 <=? n) && (n <=? 90))%N.

(** [str.lower] on one character. *)
Definition lower_ascii (c : ascii) : ascii :=
  if is_upper c then ascii_of_N (N_of_ascii c + 32) else c.

(** [str.lower]. *)
Fixpoint lower (s : string) : string :=
  match s with
  | EmptyString => EmptyString
  | String c s' => String (lower_ascii c) (lower s')
  end.

(** The ASCII characters [str.strip] takes for whitespace: tab, LF, VT, FF,
    CR, the separators FS GS RS US, and the space. *)
Definition is_space (c : ascii) : bool :=
  let n := N_of_ascii c in
  (((9 <=? n) && (n <=? 13)) || ((28 <=? n) && (n <=? 32)))%N.

(** [all(p(c) for c in s)]. *)
Fixpoint all (p : ascii -> bool) (s : string) : bool :=
  match s with
  | EmptyString => true
  | String c s' => p c && all p s'
  end.

Definition not_space (c : ascii) : bool := negb (is_space c).

(** [s.startswith(p)]. *)
Fixpoint startswith (s p : string) : bool :=
  match p, s with
  | EmptyString, _ => true
  | String a p', String b s' => if Ascii.eqb a b then startswith s' p' else false
  | String _ _, EmptyString => false
  end.

End Str.

(** ** Message texts

    A message text, and a URL taken from it, is a Python [str] of any
    content: a sequence of code points.  The texts the program writes
    itself, the values of the environment and header values stay byte
    strings. *)

Definition str : Type := list N.

(** An ASCII literal as a [str]. *)
Fixpoint of_string (s : string) : str :=
  match s with
  | EmptyString => []
  | String c s' => N_of_ascii c :: of_string s'
  end.

Coercion of_string : string >-> str.

Module Text.

(** The characters that [\s] matches in a [str] pattern, which are those
    [str.isspace] accepts: tab, LF, VT, FF, CR, FS, GS, RS, US, space,
    U+0085, U+00A0, U+1680, U+2000 to U+200A, U+2028, U+2029, U+202F,
    U+205F and U+3000. *)
Definition is_space (c : N) : bool :=
  (((9 <=? c) && (c <=? 13)) || ((28 <=? c) && (c <=? 32)) ||
   (c =? 0x85) || (c =? 0xA0) || (c =? 0x1680) ||
   ((0x2000 <=? c) && (c <=? 0x200A)) ||
   (c =? 0x2028) || (c =? 0x2029) || (c =? 0x202F) || (c =? 0x205F) ||
   (c =? 0x3000))%N.

Definition not_space (c : N) : bool := negb (is_space c).

Definition is_upper (c : N) : bool := ((65 <=? c) && (c <=? 90))%N.

(** [str.lower] on one character, as far as ASCII goes: the capital letters
    A to Z, the Kelvin sign U+212A, which lowers to "k", and the dotted
    capital I U+0130, which lowers to "i" and a combining dot U+0307, are
    the only characters whose lower case holds an ASCII character.  Every
    other character that [str.lower] changes becomes one character outside
    ASCII; such a character is left as it is here, which changes no
    comparison with an ASCII text and no search for one. *)
Definition lower_char (c : N) : str :=
  if is_upper c then [(c + 32)%N]
  else if (c =? 0x212A)%N then [107%N]
  else if (c =? 0x130)%N then [105%N; 0x307%N]
  else [c].

Definition lower (s : str) : str := flat_map lower_char s.

(** [a == b]. *)
Fixpoint eqb (a b : str) : bool :=
  match a, b with
  | [], [] => true
  | x :: a', y :: b' => (x =? y)%N && eqb a' b'
  | _, _ => false
  end.

(** [s.startswith(p)]. *)
Fixpoint startswith (s p : str) : bool :=
  match p, s with
  | [], _ => true
  | a :: p', b :: s' => if (a =? b)%N then startswith s' p' else false
  | _ :: _, [] => false
  end.

(** [p in s]: [p] occurs in [s] as a contiguous substring. *)
Fixpoint contains (s p : str) : bool :=
  startswith s p ||
  match s with
  | [] => false
  | _ :: s' => contains s' p
  end.

(** [s.endswith(p)]. *)
Definition endswith (s p : str) : bool :=
  let n := length s in
  let m := length p in
  (m <=? n)%nat && eqb (drop (n - m) s) p.

(** The text before the first character satisfying [stop], and the text
    from that character on. *)
Fixpoint span_until (stop : N -> bool) (s : str) : str * str :=
  match s with
  | [] => ([], [])
  | c :: s' =>
      if stop c then ([], s)
      else let '(a, b) := span_until stop s' in (c :: a, b)
  end.

End Text.

(** ** The regular expression of [URL_REGEX]

    Python's [re] is a backtracking matcher.  The fragment [URL_REGEX] uses
    is embedded with its operational meaning: alternatives are tried in
    priority order (greedy first) against a continuation that matches the
    rest of the pattern. *)

Module Regex.

Inductive regex :=
| Lit (c : N)                     (* an ASCII literal, under re.IGNORECASE *)
| Opt (r : regex)                 (* r?  greedy *)
| Cat (r1 r2 : regex)             (* r1 r2 *)
| PlusClass (p : N -> bool).      (* [class]+ greedy *)

(** ASCII lower case of one character. *)
Definition fold (c : N) : N := if Text.is_upper c then (c + 32)%N else c.

(** The characters outside ASCII that [re.IGNORECASE] takes for an ASCII
    letter, given in lower case: the dotted capital I U+0130 and the dotless
    i U+0131 for "i", the Kelvin sign U+212A for "k" and the long s U+017F
    for "s". *)
Definition extra_cases (l : N) : list N :=
  if (l =? 105)%N then [0x130%N; 0x131%N]
  else if (l =? 107)%N then [0x212A%N]
  else if (l =? 115)%N then [0x17F%N]
  else [].

(** The character [ch] matches the ASCII literal [c] when case is ignored. *)
Definition ignore_case (c ch : N) : bool :=
  (fold ch =? fold c)%N || existsb (N.eqb ch) (extra_cases (fold c)).

(** [[class]+] against [s]: take one character of the class, then first try
    to take more, and only then continue with the rest of the pattern. *)
Fixpoint plus_class {A} (p : N -> bool) (k : str -> option A) (s : str)
  : option A :=
  match s with
  | c :: s' =>
      if p c then
        match plus_class p k s' with
        | Some x => Some x
        | None => k s'
        end
      else None
  | [] => None
  end.

(** [rmatch r s k]: match [r] at the start of [s], then [k] on what is left;
    the first success in backtracking order. *)
Fixpoint rmatch {A} (r : regex) (s : str) (k : str -> option A) : option A :=
  match r with
  | Lit c =>
      match s with
      | c' :: s' => if ignore_case c c' then k s' else None
      | [] => None
      end
  | Opt r1 =>
      match rmatch r1 s k with
      | Some x => Some x
      | None => k s
      end
  | Cat r1 r2 => rmatch r1 s (fun s' => rmatch r2 s' k)
  | PlusClass p => plus_class p k s
  end.

(** [pattern.search(s)]: the match at the leftmost start position, as the
    matched text ([m.group(0)], which here is also [m.group(1)]). *)
Fixpoint search (r : regex) (s : str) : option str :=
  match rmatch r s Some with
  | Some rest => Some (take (length s - length rest) s)
  | None =>
      match s with
      | _ :: s' => search r s'
      | [] => None
      end
  end.

Fixpoint lits (s : str) (r : regex) : regex :=
  match s with
  | [] => r
  | c :: s' => Cat (Lit c) (lits s' r)
  end.

(** What a pattern matches, without reference to the search order. *)
Inductive matches : regex -> str -> Prop :=
| m_lit c c' : ignore_case c c' = true -> matches (Lit c) [c']
| m_opt_skip r : matches (Opt r) []
| m_opt_take r u : matches r u -> matches (Opt r) u
| m_cat r1 r2 u v : matches r1 u -> matches r2 v -> matches (Cat r1 r2) (u ++ v)
| m_plus p c u :
    p c = true -> forallb p u = true -> matches (PlusClass p) (c :: u).

End Regex.

(** ** The URL extractor *)

(** [URL_REGEX = re.compile(r"(https?://[^\s]+)", re.IGNORECASE)] *)
Definition URL_REGEX : Regex.regex :=
  Regex.lits "http"
    (Regex.Cat (Regex.Opt (Regex.Lit 115))
       (Regex.lits "://" (Regex.PlusClass Text.not_space))).

Definition pick_first_url (text : str) : option str :=
  match text with
  | [] => None
  | _ :: _ => Regex.search URL_REGEX text
  end.

(** The texts the pattern describes: "http", in any mix of cases; then,
    or not, an "s", an "S" or the long s U+017F that [re.IGNORECASE] takes
    for one; then "://"; then one or more characters none of which is
    whitespace. *)
Definition is_url (u : str) : Prop :=
  exists h t1 t2 p s rest,
    u = [h; t1; t2; p] ++ s ++ of_string "://" ++ rest /\
    (h = 104 \/ h = 72)%N /\ (t1 = 116 \/ t1 = 84)%N /\
    (t2 = 116 \/ t2 = 84)%N /\ (p = 112 \/ p = 80)%N /\
    (s = [] \/ s = [115%N] \/ s = [83%N] \/ s = [0x17F%N]) /\
    rest <> [] /\ forallb Text.not_space rest = true.

(** ** Configuration read from the environment *)

Module Env.

(** [s.lstrip()] and [s.strip()]. *)
Fixpoint lstrip (s : string) : string :=
  match s with
  | String c s' => if Str.is_space c then lstrip s' else s
  | EmptyString => EmptyString
  end.

Definition strip (s : string) : string :=
  String.rev (lstrip (String.rev (lstrip s))).

(** [s.split(sep)] for a one-character separator: never the empty list. *)
Fixpoint split (sep : ascii) (s : string) : list string :=
  match s with
  | EmptyString => [EmptyString]
  | String c s' =>
      if Ascii.eqb c sep then EmptyString :: split sep s'
      else match split sep s' with
           | w :: ws => String c w :: ws
           | [] => [String c EmptyString]
           end
  end.

(** Decimal digits with single underscores between them, as [int] reads them. *)
Fixpoint digits (acc : Z) (after_digit : bool) (s : string) : option Z :=
  match s with
  | EmptyString => if after_digit then Some acc else None
  | String c s' =>
      match Ascii.is_nat c with
      | Some d => digits (10 * acc + Z.of_nat d) true s'
      | None =>
          if Ascii.eqb c "_" && after_digit then
            match s' with
            | EmptyString => None
            | String _ _ => digits acc false s'
            end
          else None
      end
  end.

(** [int(s)] in base 10; [None] stands for [ValueError]. *)
Definition int (s : string) : option Z :=
  match strip s with
  | String "-" s' => Z.opp <$> digits 0 false s'
  | String "+" s' => digits 0 false s'
  | s' => digits 0 false s'
  end.

(** [os.environ.get(name, default)]. *)
Definition environ_get (var : option string) (default : string) : string :=
  match var with
  | Some v => v
  | None => default
  end.

(** [set(int(cid.strip()) for cid in os.environ.get("WHITELIST", "").split(",")
         if cid.strip())];
    [None] when some [int] raises, in which case the module does not load. *)
Definition parse_whitelist (var : option string) : option (gset Z) :=
  let items := split "," (environ_get var "") in
  let kept := List.filter (fun cid => negb (String.eqb (strip cid) "")) items in
  list_to_set <$> mapM (fun cid => int (strip cid)) kept.

End Env.

Record config := Config {
  WHITELIST : gset Z;
  MAX_SIZE_MB : Z;
}.

Definition VIDEO_DOMAINS : list string :=
  [ "youtube.com"; "m.youtube.com"; "youtu.be"; "youtube-nocookie.com";
    "tiktok.com"; "vm.tiktok.com";
    "instagram.com"; "cdninstagram.com";
    "x.com"; "twitter.com"; "fxtwitter.com"; "vxtwitter.com"; "video.twimg.com";
    "facebook.com"; "m.facebook.com"; "fb.watch";
    "vimeo.com"; "player.vimeo.com";
    "twitch.tv"; "clips.twitch.tv";
    "reddit.com"; "v.redd.it";
    "streamable.com";
    "dailymotion.com"; "dai.ly";
    "drive.google.com" ].

(** ** Sizes *)

(** [b / (1024 * 1024)] *)
Definition bytes_to_mb (b : Z) : Q := inject_Z b / inject_Z (1024 * 1024).

(** [x > n] for a float [x] and an int [n]. *)
Definition gt_int (x : Q) (n : Z) : bool := negb (Qle_bool x (inject_Z n)).

Module Fmt.

(** [x] in tenths, rounded to the nearest tenth, ties to the even one: the
    digits [format(x, ".1f")] prints for a float that holds [x] exactly. *)
Definition tenths (x : Q) : Z :=
  let n := (10 * Qnum x)%Z in
  let d := Zpos (Qden x) in
  let q := (n / d)%Z in
  let r := (n mod d)%Z in
  if (2 * r <? d)%Z then q
  else if (d <? 2 * r)%Z then (q + 1)%Z
  else if Z.even q then q else (q + 1)%Z.

(** [f"{x:.1f}"] for [x >= 0]. *)
Definition f1 (x : Q) : string :=
  let t := tenths x in
  pretty (t / 10)%Z +:+ "." +:+ pretty (t mod 10)%Z.

(** [f"{n}"] for an int. *)
Definition int (n : Z) : string := pretty n.

(** [f"{cid}"] for an optional int: [None] prints as its name. *)
Definition opt_int (n : option Z) : string :=
  match n with
  | Some z => pretty z
  | None => "None"
  end.

End Fmt.

(** ** The host test of [host_matches] *)

Module Url.

(** [c.isascii() and c.isalpha()] *)
Definition is_alpha (c : N) : bool :=
  (((65 <=? c) && (c <=? 90)) || ((97 <=? c) && (c <=? 122)))%N.

Definition is_digit (c : N) : bool := ((48 <=? c) && (c <=? 57))%N.

(** [scheme_chars]: the ASCII letters and digits, and [+-.] *)
Definition scheme_char (c : N) : bool :=
  (is_alpha c || is_digit c || (c =? 43) || (c =? 45) || (c =? 46))%N.

(** [s.partition(c)]: the text before the first [c], whether [c] was found,
    and the text after it. *)
Fixpoint partition (c : N) (s : str) : str * bool * str :=
  match s with
  | [] => ([], false, [])
  | a :: s' =>
      if (a =? c)%N then ([], true, s')
      else let '(x, found, y) := partition c s' in (a :: x, found, y)
  end.

(** The last component of [s.rpartition(c)]: the text after the last [c],
    all of [s] when there is none. *)
Fixpoint after_last (c : N) (s : str) : str :=
  match s with
  | [] => []
  | a :: s' =>
      let '(_, found, _) := partition c s' in
      if found then after_last c s'
      else if (a =? c)%N then s' else s
  end.

Fixpoint remove_if (p : N -> bool) (s : str) : str :=
  match s with
  | [] => []
  | a :: s' => if p a then remove_if p s' else a :: remove_if p s'
  end.

Fixpoint lstrip_if (p : N -> bool) (s : str) : str :=
  match s with
  | a :: s' => if p a then lstrip_if p s' else s
  | [] => []
  end.

(** What [urlsplit] leaves after the scheme: the url without a leading
    [scheme:] when the text before the first colon is a scheme name. *)
Definition drop_scheme (url : str) : str :=
  let '(pre, found, post) := partition 58 url in
  match pre with
  | a :: _ => if found && is_alpha a && forallb scheme_char pre then post else url
  | [] => url
  end.

(** [urlsplit(url).netloc]: after [//], up to the first of [/?#].  Leading
    control characters and spaces are stripped and tab, LF and CR removed
    first, as [urlsplit] does. *)
Definition netloc (url : str) : str :=
  let url := lstrip_if (fun c => (c <=? 32)%N) url in
  let url := remove_if (fun c => ((c =? 9) || (c =? 10) || (c =? 13))%N) url in
  match drop_scheme url with
  | a :: b :: rest =>
      if ((a =? 47) && (b =? 47))%N
      then fst (Text.span_until (fun c => ((c =? 47) || (c =? 63) || (c =? 35))%N) rest)
      else []
  | _ => []
  end.

(** [urlparse(url).hostname or ""], before lowering.  The checks with which
    [urlsplit] refuses a network location (unbalanced or non-address
    brackets, characters that normalise to a delimiter) are not part of the
    model: where [urlsplit] raises, this function still returns a text. *)
Definition hostname (url : str) : str :=
  let hostinfo := after_last 64 (netloc url) in
  let '(_, have_open_br, bracketed) := partition 91 hostinfo in
  if have_open_br then fst (fst (partition 93 bracketed))
  else fst (fst (partition 58 hostinfo)).

End Url.

Definition host_allowed (host d : str) : bool :=
  Text.eqb host d || Text.endswith host (46%N :: d).

Definition host_matches (url : str) : bool :=
  let host := Text.lower (Url.hostname url) in
  let allowed :=
    existsb (fun d => host_allowed host d)
            (map (fun d : string => Text.lower d) VIDEO_DOMAINS) in
  if negb allowed then false else true.

(** The test [handle_message] applies instead: some entry of [VIDEO_DOMAINS]
    occurs somewhere in the lowered url ([for domain ...: if domain in
    url.lower(): break / else: return]). *)
Definition domain_gate (url : str) : bool :=
  existsb (fun domain : string => Text.contains (Text.lower url) domain) VIDEO_DOMAINS.

(** ** The world outside the handler *)

(** A file of a scratch directory: the directory and the file's name. *)
Abbreviation path := (positive * string)%type.

(** The scratch directories, each with the sizes of its files. *)
Abbreviation filesystem := (gmap positive (gmap string Z)).

(** The calls to the chat transport. *)
Inductive action :=
| ReplyText (text : string)            (* msg.reply_text(text) *)
| ReplyVideo (file : path)             (* msg.reply_video(video=...) *)
| ReplyDocument (file : path)          (* msg.reply_document(document=...) *)
| SendChatAction (chat_id : Z).        (* bot.send_chat_action(..., UPLOAD_VIDEO) *)

Inductive event :=
| Sent (a : action)                    (* the call returned *)
| Failed (a : action) (err : string)   (* the call raised; [err] is [str(e)] *)
| Logged (line : string)               (* logger.warning(line) *)
| MkTemp (d : positive)                (* TemporaryDirectory().__enter__ *)
| RmTree (d : positive)                (* TemporaryDirectory().__exit__ *)
| Head (url : str)                     (* session.head(url) *)
| Extract (url : str) (d : positive).  (* YoutubeDL(...).extract_info(url) *)

(** What the extraction backend does with a url: it raises, or it returns and
    [prepare_filename] names a file; either way it may leave files in the
    output directory. *)
Inductive backend_result :=
| BackendRaises (err : string) (left_behind : gmap string Z)
| BackendReturns (filename : string) (written : gmap string Z).

Record environment := Environment {
  (** [None]: the call returns; [Some err]: it raises an exception whose text is [err]. *)
  transport : action -> option string;
  (** [None]: the HEAD request raises; [Some ct]: it answers, with this [Content-Type]. *)
  head_request : str -> option (option string);
  backend : str -> backend_result;
}.

Record update := Update {
  effective_chat : option Z;           (* update.effective_chat.id, when there is a chat *)
  msg_text : option str;               (* update.effective_message.text *)
  msg_caption : option str;            (* update.effective_message.caption *)
}.

Record state := State {
  trace : list event;
  fs : filesystem;
}.

(** ** Computations that may raise *)

Module Eff.

Inductive result (A : Type) :=
| Ok (a : A)
| Raised (err : string).
Arguments Ok {A} a.
Arguments Raised {A} err.

Definition M (A : Type) : Type := state -> result A * state.

Definition ret {A} (a : A) : M A := fun st => (Ok a, st).

Definition bind {A B} (m : M A) (k : A -> M B) : M B :=
  fun st =>
    match m st with
    | (Ok a, st') => k a st'
    | (Raised e, st') => (Raised e, st')
    end.

Definition raise {A} (err : string) : M A := fun st => (Raised err, st).

(** [try: m / except Exception as e: handler(e)] *)
Definition try_except {A} (m : M A) (handler : string -> M A) : M A :=
  fun st =>
    match m st with
    | (Ok a, st') => (Ok a, st')
    | (Raised e, st') => handler e st'
    end.

Definition emit (ev : event) : M unit :=
  fun st => (Ok tt, State (trace st ++ [ev]) (fs st)).

Definition get_fs : M filesystem := fun st => (Ok (fs st), st).

Definition put_fs (f : filesystem) : M unit :=
  fun st => (Ok tt, State (trace st) f).

(** [with tempfile.TemporaryDirectory() as td: body(td)]: a new directory,
    removed with all it holds however the body is left, by return or by
    exception.  The removal itself is taken to succeed. *)
Definition with_tempdir {A} (body : positive -> M A) : M A :=
  fun st =>
    let td := fresh (dom (fs st)) in
    let st1 := State (trace st ++ [MkTemp td]) (<[td := ∅]> (fs st)) in
    let '(r, st2) := body td st1 in
    (r, State (trace st2 ++ [RmTree td]) (delete td (fs st2))).

End Eff.

Global Instance M_ret : MRet Eff.M := @Eff.ret.
Global Instance M_bind : MBind Eff.M := fun A B k m => Eff.bind m k.

(** ** The handler *)

Section Handler.

Context (cfg : config) (env : environment).

(** A call to the transport: recorded, and raising when the transport does. *)
Definition call (a : action) : Eff.M unit :=
  match transport env a with
  | None => Eff.emit (Sent a)
  | Some err => Eff.emit (Failed a err) ;; Eff.raise err
  end.

Definition log_warning (line : string) : Eff.M unit := Eff.emit (Logged line).

Definition NOT_ALLOWED : string := "⚠️ This chat is not allowed to use this bot.".
Definition COULD_NOT_DOWNLOAD : string :=
  "❌ Couldn't download this link. It may be unsupported or blocked.".

(** [f"⚠️ File is too large ({bytes_to_mb(size):.1f} MB). Limit is {MAX_SIZE_MB} MB."] *)
Definition too_large (size : Z) : string :=
  "⚠️ File is too large (" +:+ Fmt.f1 (bytes_to_mb size) +:+ " MB). Limit is "
    +:+ Fmt.int (MAX_SIZE_MB cfg) +:+ " MB.".

(** [f"❌ Upload failed: {e}"] *)
Definition upload_failed (err : string) : string := "❌ Upload failed: " +:+ err.

(** [cid not in WHITELIST]: [None] is in no set of ints. *)
Definition not_whitelisted (cid : option Z) : bool :=
  match cid with
  | Some c => bool_decide (c ∉ WHITELIST cfg)
  | None => true
  end.

(** Returns [True] when the message is rejected. *)
Definition reject_if_not_whitelisted (u : update) : Eff.M bool :=
  let cid := effective_chat u in
  if not_whitelisted cid then
    Eff.try_except
      (call (ReplyText NOT_ALLOWED) ;;
       log_warning ("Rejected message from non-whitelisted chat " +:+ Fmt.opt_int cid))
      (fun _ => Eff.ret tt) ;;
    Eff.ret true
  else Eff.ret false.

Definition send_typing (chat_id : Z) : Eff.M unit :=
  Eff.try_except (call (SendChatAction chat_id)) (fun _ => Eff.ret tt).

(** [http_head]: the response, or [None] when the request raised. *)
Definition http_head (url : str) : Eff.M (option (option string)) :=
  Eff.emit (Head url) ;; Eff.ret (head_request env url).

(** [ytdlp_download(url, out_dir)]: the backend writes into [out_dir]; the
    file it names is returned when the name is not empty and the file exists. *)
Definition ytdlp_download (url : str) (out_dir : positive) : Eff.M (option path) :=
  Eff.emit (Extract url out_dir) ;;
  f ← Eff.get_fs;
  match backend env url with
  | BackendRaises err files =>
      Eff.put_fs (<[out_dir := files]> f) ;; Eff.raise err
  | BackendReturns filename files =>
      Eff.put_fs (<[out_dir := files]> f) ;;
      if negb (String.eqb filename "") && bool_decide (is_Some (files !! filename))
      then Eff.ret (Some (out_dir, filename))
      else Eff.ret None
  end.

(** [p.stat().st_size]; it raises when the file is missing. *)
Definition stat_size (p : path) : Eff.M Z :=
  f ← Eff.get_fs;
  match f !! p.1 ≫= (fun dir => dir !! p.2) with
  | Some size => Eff.ret size
  | None => Eff.raise "No such file or directory"
  end.

(** [p.open("rb")]; it raises when the file is missing. *)
Definition open_rb (p : path) : Eff.M unit :=
  _ ← stat_size p; Eff.ret tt.

(** [update.effective_chat.id]: an attribute error when there is no chat. *)
Definition chat_id (u : update) : Eff.M Z :=
  match effective_chat u with
  | Some c => Eff.ret c
  | None => Eff.raise "'NoneType' object has no attribute 'id'"
  end.

(** [s1 or s2 or ""] on optional strings: the first one that is present and
    not empty. *)
Definition text_of (u : update) : str :=
  match msg_text u with
  | Some (a :: t) => a :: t
  | _ =>
      match msg_caption u with
      | Some (a :: t) => a :: t
      | _ => []
      end
  end.

(** The part of [handle_message] after the size check: video first, then
    document, then the error text. *)
Definition deliver (file_path : path) : Eff.M unit :=
  sent ← Eff.try_except
            (open_rb file_path ;; call (ReplyVideo file_path) ;; Eff.ret true)
            (fun e => log_warning ("Failed to send as video: " +:+ e) ;; Eff.ret false);
  if sent : bool then Eff.ret tt
  else
    Eff.try_except
      (open_rb file_path ;; call (ReplyDocument file_path))
      (fun e => call (ReplyText (upload_failed e))).

(** The body of the [with] block of [handle_message].  The content type of
    the HEAD response and the extension of the url are computed and never
    used ([downloaded] is still [False] when it is tested), so the backend is
    always called; the extension is a pure value and is left out.  When the
    [try] block is left by an exception the handler returns right after the
    reply, so the value of [file_path] no longer matters there. *)
Definition in_workspace (url : str) (td : positive) : Eff.M unit :=
  head ← http_head url;
  let content_type := head ≫= id in
  let file_path : path := (td, "video_download") in
  '(downloaded, file_path, size) ←
    Eff.try_except
      (fp ← ytdlp_download url td;
       match fp with
       | Some fp => size ← stat_size fp; Eff.ret (true, fp, size)
       | None => Eff.ret (false, file_path, 0%Z)
       end)
      (fun _ => Eff.ret (false, file_path, 0%Z));
  if negb downloaded then call (ReplyText COULD_NOT_DOWNLOAD)
  else if gt_int (bytes_to_mb size) (MAX_SIZE_MB cfg) then call (ReplyText (too_large size))
  else deliver file_path.

Definition handle_message (u : update) : Eff.M unit :=
  rejected ← reject_if_not_whitelisted u;
  if rejected : bool then Eff.ret tt
  else
    match pick_first_url (text_of u) with
    | None => Eff.ret tt
    | Some url =>
        if negb (domain_gate url) then Eff.ret tt
        else
          cid ← chat_id u;
          send_typing cid ;;
          Eff.with_tempdir (in_workspace url)
    end.

End Handler.

(** ** Reading a trace *)

(** The transport calls that were made, in order. *)
Definition attempts (tr : list event) : list action :=
  omap (fun ev => match ev with Sent a | Failed a _ => Some a | _ => None end) tr.

(** The transport calls that went through: what the chat received. *)
Definition deliveries (tr : list event) : list action :=
  omap (fun ev => match ev with Sent a => Some a | _ => None end) tr.

(** The lines written to the log. *)
Definition log_lines (tr : list event) : list string :=
  omap (fun ev => match ev with Logged line => Some line | _ => None end) tr.

(** The urls handed to the extraction backend. *)
Definition extractions (tr : list event) : list str :=
  omap (fun ev => match ev with Extract url _ => Some url | _ => None end) tr.

Definition is_upload (a : action) : bool :=
  match a with
  | ReplyVideo _ | ReplyDocument _ => true
  | _ => false
  end.

Definition is_reply (a : action) : bool :=
  match a with
  | SendChatAction _ => false
  | _ => true
  end.

(** The replies that were tried, and the replies the chat received. *)
Definition replies_tried (tr : list event) : list action :=
  List.filter is_reply (attempts tr).

Definition replies_sent (tr : list event) : list action :=
  List.filter is_reply (deliveries tr).

(** The files a backend answer leaves in the output directory. *)
Definition backend_files (r : backend_result) : gmap string Z :=
  match r with
  | BackendRaises _ files | BackendReturns _ files => files
  end.

(** The download a backend answer amounts to: the name and the size of the
    file when the backend returned, named a file and that file exists. *)
Definition produced (r : backend_result) : option (string * Z) :=
  match r with
  | BackendReturns (String a name) files =>
      size ← files !! String a name; Some (String a name, size)
  | _ => None
  end.

(** The update passes the three gates of [handle_message] with [url]. *)
Definition passes_gates (cfg : config) (u : update) (url : str) : Prop :=
  (exists c, effective_chat u = Some c /\ c ∈ WHITELIST cfg) /\
  pick_first_url (text_of u) = Some url /\
  domain_gate url = true.

(** The record the typing indicator leaves, whether or not the transport
    takes it. *)
Definition typing_event (env : environment) (c : Z) : event :=
  match transport env (SendChatAction c) with
  | None => Sent (SendChatAction c)
  | Some err => Failed (SendChatAction c) err
  end.

(** The state in which the part of the handler after the download starts:
    the two requests are on record and the backend's files are in the
    output directory. *)
Definition after_download (env : environment) (url : str) (td : positive)
    (st : state) : state :=
  State (trace st ++ [Head url; Extract url td])
        (<[td := backend_files (backend env url)]> (fs st)).

(** The events of talking to the chat and of logging. *)
Definition is_talk (ev : event) : bool :=
  match ev with
  | Sent _ | Failed _ _ | Logged _ => true
  | _ => false
  end.

(** The ceiling in bytes. *)
Definition ceiling (cfg : config) : Z := (MAX_SIZE_MB cfg * (1024 * 1024))%Z.

(** The number of bytes in a run of chunks. *)
Definition total (chunks : list (list Byte.byte)) : Z :=
  Z.of_nat (length (concat chunks)).

(** The uploads that were tried, in order. *)
Definition uploads (tr : list event) : list action :=
  List.filter is_upload (attempts tr).

(** A run of a computation from the empty trace: its result and its trace. *)
Definition run {A} (m : Eff.M A) (files : filesystem) : Eff.result A * list event :=
  let '(r, st) := m (State [] files) in (r, trace st).

(** ** The streaming downloader [http_get_to_file] *)

Module Stream.

(** [1 << 14] *)
Definition CHUNK_SIZE : nat := Z.to_nat (Z.shiftl 1 14).

(** One arrival of body data cut into pieces of at most [n] bytes. *)
Fixpoint pieces (fuel n : nat) (data : list Byte.byte) : list (list Byte.byte) :=
  match fuel with
  | O => []
  | S fuel' =>
      match data with
      | [] => []
      | _ :: _ => take n data :: pieces fuel' n (drop n data)
      end
  end.

(** [r.content.iter_chunked(n)]: the body as it arrives, handed over in
    chunks of at most [n] bytes. *)
Definition iter_chunked (n : nat) (arrivals : list (list Byte.byte)) : list (list Byte.byte) :=
  concat (map (fun data => pieces (length data) n data) arrivals).

(** What the server does with the GET. *)
Inductive response :=
| GetRaises                           (* session.get raises *)
| BadStatus                           (* raise_for_status raises *)
| Body (arrivals : list (list Byte.byte)) (broken : bool).
    (* the body; [broken]: the connection fails after these arrivals *)

(** The loop over the chunks.  [written] is the content of the file so far. *)
Fixpoint consume (max_size_mb : Z) (size : Z) (written : list Byte.byte)
    (chunks : list (list Byte.byte)) (broken : bool) : (bool * Z) * list Byte.byte :=
  match chunks with
  | [] => ((negb broken, size), written)
  | chunk :: rest =>
      match chunk with
      | [] => consume max_size_mb size written rest broken
      | _ :: _ =>
          let size := (size + Z.of_nat (length chunk))%Z in
          if gt_int (bytes_to_mb size) max_size_mb then ((false, size), written)
          else consume max_size_mb size (written ++ chunk) rest broken
      end
  end.

(** The result of the call and the file at [out_path] afterwards ([None]: no
    such file), given the file before the call. *)
Definition http_get_to_file (cfg : config) (r : response) (before : option (list Byte.byte))
  : (bool * Z) * option (list Byte.byte) :=
  match r with
  | GetRaises | BadStatus => ((false, 0%Z), before)
  | Body arrivals broken =>
      let '(res, written) :=
        consume (MAX_SIZE_MB cfg) 0 [] (iter_chunked CHUNK_SIZE arrivals) broken in
      (res, Some written)
  end.

End Stream.

(** ** Concrete inputs *)

Module Scenario.

(** Chat 7 is allowed; the ceiling is the default, 50 MB. *)
Definition cfg : config := Config {[ 7%Z ]} 50.

Definition from_chat (c : Z) (text : str) : update :=
  Update (Some c) (Some text) None.

Definition youtu_be : str := "https://youtu.be/abc123".

Definition message : update := from_chat 7 "check this out https://youtu.be/abc123".

(** A backend that downloads one file of the given size. *)
Definition downloads (size : Z) : str -> backend_result :=
  fun _ => BackendReturns "clip.mp4" {[ "clip.mp4" := size ]}.

Definition transport_up : action -> option string := fun _ => None.

Definition transport_down : action -> option string := fun _ => Some "Timed out".

Definition no_head : str -> option (option string) := fun _ => None.

End Scenario.

Module ScenarioMiB.

(** A ceiling of 1 MB, and a body of exactly 1 MiB that arrives at once. *)
Definition cfg : config := Config {[ 7%Z ]} 1.

Definition data : list Byte.byte := repeat Byte.x00 (Z.to_nat (1024 * 1024)).

Abbreviation chunks := (Stream.iter_chunked Stream.CHUNK_SIZE [data]).

End ScenarioMiB.

(** ** The content-type test *)

(** [_is_video_content_type(ct)]: [bool(ct and ct.lower().startswith("video/"))] *)
Definition is_video_content_type (ct : option string) : bool :=
  match ct with
  | Some ct => negb (String.eqb ct "") && Str.startswith (Str.lower ct) "video/"
  | None => false
  end.

(** ** Descriptions used by the further properties *)




(** The urls [urlsplit] parses without raising, whatever else they hold:
    all ASCII, so that no character normalises to a delimiter, and without
    square brackets. *)
Definition plain_url (url : str) : bool :=
  forallb (fun c => (c <? 128) && negb (c =? 91) && negb (c =? 93))%N url.

(** [p] occurs in [s] as a contiguous substring. *)
Definition occurs_in (p s : str) : Prop :=
  exists pre post, s = pre ++ p ++ post.

(** * Properties *)

(** ** Strings *)

Module StrFacts.

Lemma app_cons c s t : String c s +:+ t = String c (s +:+ t).
Proof. reflexivity. Qed.

Lemma app_nil_l s : "" +:+ s = s.
Proof. reflexivity. Qed.

Lemma app_nil_r s : s +:+ "" = s.
Proof. induction s as [|c s IH]; [reflexivity|]. by rewrite app_cons, IH. Qed.

Lemma app_assoc a b c : (a +:+ b) +:+ c = a +:+ (b +:+ c).
Proof. induction a as [|x a IH]; [reflexivity|]. by rewrite !app_cons, IH. Qed.

Lemma length_app a b : String.length (a +:+ b) = String.length a + String.length b.
Proof. induction a as [|x a IH]; [reflexivity|]. rewrite app_cons. simpl. by rewrite IH. Qed.

Lemma all_app p a b : Str.all p (a +:+ b) = Str.all p a && Str.all p b.
Proof.
  induction a as [|x a IH]; [reflexivity|].
  rewrite app_cons. simpl. by rewrite IH, andb_assoc.
Qed.

Lemma lower_app a b : Str.lower (a +:+ b) = Str.lower a +:+ Str.lower b.
Proof. induction a as [|x a IH]; [reflexivity|]. rewrite !app_cons. simpl. by rewrite IH. Qed.

End StrFacts.

(** ** The matcher against the declarative meaning of a pattern *)

Module RegexFacts.
Import Regex.

Section Continuations.

Context {A : Type}.
Implicit Types (k : str -> option A) (s u rest : str).

Lemma plus_class_sound p k s x :
  plus_class p k s = Some x ->
  exists c u rest,
    s = c :: (u ++ rest) /\ p c = true /\ forallb p u = true /\ k rest = Some x.
Proof.
  revert x. induction s as [|c s IH]; intros x; simpl; [discriminate|].
  destruct (p c) eqn:Hc; [|discriminate].
  destruct (plus_class p k s) as [y|] eqn:Hrec.
  - intros [= ->]. destruct (IH _ eq_refl) as (c' & u & rest & -> & Hc' & Hu & Hk).
    exists c, (c' :: u), rest. simpl. rewrite Hc', Hu. auto.
  - intros Hk. exists c, [], s. auto.
Qed.

Lemma plus_class_complete p k c u rest x :
  p c = true -> forallb p u = true -> k rest = Some x ->
  exists y, plus_class p k (c :: (u ++ rest)) = Some y.
Proof.
  revert c. induction u as [|d u IH]; intros c Hc Hu Hk; simpl; rewrite Hc.
  - destruct (plus_class p k rest); eauto.
  - simpl in Hu. apply andb_prop in Hu as [Hd Hu].
    destruct (IH d Hd Hu Hk) as [y Hy]. simpl in Hy. rewrite Hy. eauto.
Qed.

(** Every success of the matcher is a match of the pattern followed by a
    success of the continuation. *)
Lemma rmatch_sound r : forall k s x,
  rmatch r s k = Some x ->
  exists u rest, s = u ++ rest /\ matches r u /\ k rest = Some x.
Proof.
  induction r as [c|r IH|r1 IH1 r2 IH2|p]; intros k s x; simpl.
  - destruct s as [|c' s]; [discriminate|].
    destruct (ignore_case c c') eqn:E; [|discriminate]. intros Hk.
    exists [c'], s. repeat split; auto using matches.
  - destruct (rmatch r s k) as [y|] eqn:Hr.
    + intros [= ->]. destruct (IH _ _ _ Hr) as (u & rest & -> & Hm & Hk).
      exists u, rest. repeat split; auto using matches.
    + intros Hk. exists [], s. repeat split; auto using matches.
  - intros H. destruct (IH1 _ _ _ H) as (u & rest1 & -> & Hm1 & H2).
    destruct (IH2 _ _ _ H2) as (v & rest & -> & Hm2 & Hk).
    exists (u ++ v), rest. rewrite <- app_assoc.
    repeat split; auto using matches.
  - intros H. destruct (plus_class_sound _ _ _ _ H) as (c & u & rest & -> & ? & ? & ?).
    exists (c :: u), rest. repeat split; auto using matches.
Qed.

(** If the pattern matches a prefix after which the continuation succeeds,
    the matcher succeeds (possibly on an alternative of higher priority). *)
Lemma rmatch_complete r u :
  matches r u -> forall k rest x,
  k rest = Some x -> exists y, rmatch r (u ++ rest) k = Some y.
Proof.
  induction 1 as [c c' Hc|r|r u _ IH|r1 r2 u v _ IH1 _ IH2|p c u Hc Hu];
    intros k rest x Hk.
  - cbn [app rmatch]. rewrite Hc. eauto.
  - cbn [app rmatch]. destruct (rmatch r rest k); eauto.
  - cbn [rmatch]. destruct (IH _ _ _ Hk) as [y ->]. eauto.
  - destruct (IH2 _ _ _ Hk) as [y Hy].
    rewrite <- app_assoc. cbn [rmatch].
    exact (IH1 (fun s' => rmatch r2 s' k) _ _ Hy).
  - cbn [app rmatch]. eapply plus_class_complete; eauto.
Qed.

Lemma rmatch_tail r1 r2 k s x :
  rmatch (Cat r1 r2) s k = Some x -> exists s', rmatch r2 s' k = Some x.
Proof.
  simpl. intros H. destruct (rmatch_sound _ _ _ _ H) as (_ & rest & _ & _ & ?). eauto.
Qed.

Lemma rmatch_lits_tail w r k s x :
  rmatch (lits w r) s k = Some x -> exists s', rmatch r s' k = Some x.
Proof.
  revert s. induction w as [|c w IH]; intros s; simpl; [eauto|].
  intros H. destruct (rmatch_sound (Lit c) _ _ _ H) as (_ & rest & _ & _ & H').
  eauto.
Qed.

End Continuations.

(** A greedy class repetition at the end of a pattern stops only at the end
    of the subject or before a character outside the class. *)
Lemma plus_class_stop p s rest :
  plus_class p Some s = Some rest ->
  rest = [] \/ exists c t, rest = c :: t /\ p c = false.
Proof.
  induction s as [|c s IH]; simpl; [discriminate|].
  destruct (p c); [|discriminate].
  destruct (plus_class p Some s) as [y|] eqn:Hrec.
  - intros [= ->]. auto.
  - intros [= ->]. destruct rest as [|d t]; [auto|]. right. exists d, t. split; [done|].
    simpl in Hrec. destruct (p d); [|done].
    by destruct (plus_class p Some t).
Qed.

Lemma search_unfold r s :
  search r s =
  match rmatch r s Some with
  | Some rest => Some (take (length s - length rest) s)
  | None => match s with _ :: s' => search r s' | [] => None end
  end.
Proof. by destruct s. Qed.

Lemma search_hit r s rest :
  rmatch r s Some = Some rest ->
  exists u, s = u ++ rest /\ matches r u /\ take (length s - length rest) s = u.
Proof.
  intros Hm. destruct (rmatch_sound _ _ _ _ Hm) as (u & rest' & -> & Hu & [= ->]).
  exists u. repeat split; [done|]. apply take_app_length'. rewrite length_app. lia.
Qed.

Lemma rmatch_miss r s :
  rmatch r s Some = None -> forall u post, s = u ++ post -> ~ matches r u.
Proof.
  intros Hm u post -> Hu.
  destruct (rmatch_complete _ _ Hu Some post post eq_refl) as [y Hy]. congruence.
Qed.

(** [search] returns a match of the pattern, at the leftmost position where
    the pattern matches at all. *)
Lemma search_some r s u :
  search r s = Some u ->
  exists pre post,
    s = pre ++ u ++ post /\ matches r u /\ rmatch r (u ++ post) Some = Some post /\
    forall pre' u' post', s = pre' ++ u' ++ post' -> matches r u' ->
      length pre <= length pre'.
Proof.
  revert u. induction s as [|c s IH]; intros u; rewrite search_unfold;
    destruct (rmatch r _ Some) as [rest|] eqn:Hm; try discriminate.
  - destruct (search_hit _ _ _ Hm) as (u0 & Hs & Hu & Hsub).
    rewrite Hsub. intros [= <-]. exists [], rest. cbn [app]. rewrite <- Hs.
    repeat split; auto. intros; simpl; lia.
  - destruct (search_hit _ _ _ Hm) as (u0 & Hs & Hu & Hsub).
    rewrite Hsub. intros [= <-]. exists [], rest. cbn [app]. rewrite <- Hs.
    repeat split; auto. intros; simpl; lia.
  - intros Hrec. destruct (IH _ Hrec) as (pre & post & -> & Hu & Hpost & Hleft).
    exists (c :: pre), post. repeat split; auto.
    intros [|c' pre'] u' post' Hs Hu'.
    + cbn [app] in Hs. by destruct (rmatch_miss _ _ Hm _ _ Hs).
    + cbn [app] in Hs. injection Hs as -> Hs.
      simpl. apply le_n_S. eauto.
Qed.

Lemma search_none r s :
  search r s = None ->
  forall pre u post, s = pre ++ u ++ post -> ~ matches r u.
Proof.
  induction s as [|c s IH]; rewrite search_unfold;
    destruct (rmatch r _ Some) as [rest|] eqn:Hm; try discriminate.
  - intros _ [|c' pre] u post Hs; [|discriminate].
    cbn [app] in Hs. by eapply rmatch_miss.
  - intros Hrec [|c' pre] u post Hs.
    + cbn [app] in Hs. by eapply rmatch_miss.
    + cbn [app] in Hs. injection Hs as -> Hs. by eapply IH.
Qed.

End RegexFacts.

(** ** The URL extractor (C5) *)

Module UrlPattern.
Import Regex.

Lemma matches_lit_cat c r u :
  matches (Cat (Lit c) r) u <->
  exists c' v, u = c' :: v /\ ignore_case c c' = true /\ matches r v.
Proof.
  split.
  - inversion 1 as [| | |? ? a v Ha Hv|]; subst. inversion Ha; subst. eauto.
  - intros (c' & v & -> & Hc & Hv).
    change (c' :: v) with ([c'] ++ v). auto using matches.
Qed.

Lemma matches_opt_lit_cat c r u :
  matches (Cat (Opt (Lit c)) r) u <->
  matches r u \/
  exists c' v, u = c' :: v /\ ignore_case c c' = true /\ matches r v.
Proof.
  split.
  - inversion 1 as [| | |? ? a v Ha Hv|]; subst.
    inversion Ha as [|? E|? ? Hl| |]; subst; [by left|].
    inversion Hl; subst. right. eauto.
  - intros [Hu|(c' & v & -> & Hc & Hv)].
    + change u with ([] ++ u). auto using matches.
    + change (c' :: v) with ([c'] ++ v). auto using matches.
Qed.

Lemma matches_plus p u :
  matches (PlusClass p) u <-> u <> [] /\ forallb p u = true.
Proof.
  split.
  - inversion 1; subst. simpl. split; [done|]. by apply andb_true_intro.
  - destruct u as [|c u]; intros [Hne Hall]; [done|].
    simpl in Hall. apply andb_prop in Hall as [? ?]. by constructor.
Qed.

(** Which characters each literal of the pattern takes when case is
    ignored. *)
Local Ltac letter_cases :=
  unfold ignore_case, fold, Text.is_upper;
  repeat match goal with
    | |- context [N.leb ?a ?b] => destruct (N.leb_spec a b)
    end;
  cbn; rewrite ?orb_false_r, ?orb_true_iff, ?N.eqb_eq; lia.

Lemma ignore_case_h ch : ignore_case 104 ch = true <-> (ch = 104 \/ ch = 72)%N.
Proof. letter_cases. Qed.

Lemma ignore_case_t ch : ignore_case 116 ch = true <-> (ch = 116 \/ ch = 84)%N.
Proof. letter_cases. Qed.

Lemma ignore_case_p ch : ignore_case 112 ch = true <-> (ch = 112 \/ ch = 80)%N.
Proof. letter_cases. Qed.

Lemma ignore_case_s ch :
  ignore_case 115 ch = true <-> (ch = 115 \/ ch = 83 \/ ch = 0x17F)%N.
Proof. letter_cases. Qed.

Lemma ignore_case_colon ch : ignore_case 58 ch = true <-> ch = 58%N.
Proof. letter_cases. Qed.

Lemma ignore_case_slash ch : ignore_case 47 ch = true <-> ch = 47%N.
Proof. letter_cases. Qed.

(** The texts [://] and then the class describe. *)
Lemma matches_body v :
  matches (lits "://" (PlusClass Text.not_space)) v <->
  exists rest, v = of_string "://" ++ rest /\ rest <> [] /\
               forallb Text.not_space rest = true.
Proof.
  change (of_string "://") with [58%N; 47%N; 47%N]. cbn [lits app].
  split.
  - intros (c1 & v1 & -> & H1%ignore_case_colon
            & (c2 & v2 & -> & H2%ignore_case_slash
               & (c3 & v3 & -> & H3%ignore_case_slash & Hrest%matches_plus)
                 %matches_lit_cat)%matches_lit_cat)%matches_lit_cat.
    subst. exists v3. by destruct Hrest.
  - intros (rest & -> & Hne & Hall).
    apply matches_lit_cat. exists 58%N, (47 :: 47 :: rest)%N.
    repeat split.
    apply matches_lit_cat. exists 47%N, (47 :: rest)%N.
    repeat split.
    apply matches_lit_cat. exists 47%N, rest.
    repeat split. by apply matches_plus.
Qed.

(** The pattern describes exactly the texts of [is_url]. *)
Lemma matches_url u : matches URL_REGEX u <-> is_url u.
Proof.
  unfold URL_REGEX, is_url.
  change (of_string "http") with [104%N; 116%N; 116%N; 112%N]. cbn [lits].
  split.
  - intros (h & v1 & -> & Hh%ignore_case_h
            & (t1 & v2 & -> & Ht1%ignore_case_t
               & (t2 & v3 & -> & Ht2%ignore_case_t
                  & (p & v4 & -> & Hp%ignore_case_p & Hrest)
                    %matches_lit_cat)%matches_lit_cat)%matches_lit_cat)%matches_lit_cat.
    apply matches_opt_lit_cat in Hrest
      as [Hbody|(s & v5 & -> & Hs%ignore_case_s & Hbody)];
      apply (proj1 (matches_body _)) in Hbody as (rest & -> & Hne & Hall).
    + exists h, t1, t2, p, [], rest. repeat split; auto.
    + exists h, t1, t2, p, [s], rest. repeat split; auto.
      destruct Hs as [->|[->| ->]]; auto.
  - intros (h & t1 & t2 & p & s & rest & -> & Hh & Ht1 & Ht2 & Hp & Hs & Hne & Hall).
    cbn [app].
    assert (matches (lits "://" (PlusClass Text.not_space)) (of_string "://" ++ rest))
      as Hbody by (apply matches_body; eauto).
    apply matches_lit_cat. exists h, (t1 :: t2 :: p :: s ++ of_string "://" ++ rest).
    repeat split; [by apply ignore_case_h|].
    apply matches_lit_cat. exists t1, (t2 :: p :: s ++ of_string "://" ++ rest).
    repeat split; [by apply ignore_case_t|].
    apply matches_lit_cat. exists t2, (p :: s ++ of_string "://" ++ rest).
    repeat split; [by apply ignore_case_t|].
    apply matches_lit_cat. exists p, (s ++ of_string "://" ++ rest).
    repeat split; [by apply ignore_case_p|].
    apply matches_opt_lit_cat.
    destruct Hs as [->|Hs]; [by left|]. right.
    assert (exists c, s = [c] /\ ignore_case 115 c = true) as (c & -> & Hc).
    { destruct Hs as [->|[->| ->]]; eexists; (split; [reflexivity|]);
        apply ignore_case_s; auto. }
    exists c, (of_string "://" ++ rest). by repeat split.
Qed.

(** The match runs up to the next whitespace character or to the end of the
    text. *)
Lemma url_match_stops s post :
  rmatch URL_REGEX s Some = Some post ->
  post = [] \/ exists c t, post = c :: t /\ Text.is_space c = true.
Proof.
  unfold URL_REGEX. intros H.
  apply RegexFacts.rmatch_lits_tail in H as [s1 H].
  apply RegexFacts.rmatch_tail in H as [s2 H].
  apply RegexFacts.rmatch_lits_tail in H as [s3 H].
  apply RegexFacts.plus_class_stop in H as [->|(c & t & -> & Hc)].
  - by left.
  - right. exists c, t. split; [done|]. by apply negb_false_iff.
Qed.

End UrlPattern.

(** C5.  [pick_first_url] returns the leftmost text of the message that the
    pattern [https?://] followed by one or more non-whitespace characters
    describes (in any mix of cases), taken up to the next whitespace or the
    end of the message: nothing to its left is such a text, so of several
    URLs only the first is returned.  It returns nothing exactly when the
    message holds no such text, in particular for the empty message.  The
    message is any sequence of code points; whitespace and the letters of
    the scheme are what [re] takes for them in a [str], inside and outside
    ASCII. *)
Theorem pick_first_url_leftmost (text : str) :
  pick_first_url [] = None /\
  match pick_first_url text with
  | Some url =>
      exists pre post,
        text = pre ++ url ++ post /\ is_url url /\
        (post = [] \/ exists c t, post = c :: t /\ Text.is_space c = true) /\
        (forall pre' url' post', text = pre' ++ url' ++ post' -> is_url url' ->
           length pre <= length pre')
  | None => forall pre url post, text = pre ++ url ++ post -> ~ is_url url
  end.
Proof.
  split; [reflexivity|].
  unfold pick_first_url. destruct text as [|c0 text].
  - intros [|] url post Hs; [|discriminate].
    cbn [app] in Hs. intros (h & t1 & t2 & p & s & rest & -> & _). discriminate.
  - destruct (Regex.search URL_REGEX (c0 :: text)) as [url|] eqn:Hsearch.
    + apply RegexFacts.search_some in Hsearch as (pre & post & Hs & Hu & Hpost & Hleft).
      exists pre, post. repeat split; [done|by apply UrlPattern.matches_url| |].
      * by eapply UrlPattern.url_match_stops.
      * intros pre' url' post' Hs' Hu'. apply UrlPattern.matches_url in Hu'. eauto.
    + intros pre url post Hs Hu. apply UrlPattern.matches_url in Hu.
      by eapply RegexFacts.search_none.
Qed.

Example pick_first_url_first_of_two :
  pick_first_url "check this out https://youtu.be/abc123 and http://x.com/y"
  = Some (of_string "https://youtu.be/abc123").
Proof. reflexivity. Qed.

Example pick_first_url_ignores_case :
  pick_first_url "see HTTP://Example.COM/a?b=c"
  = Some (of_string "HTTP://Example.COM/a?b=c").
Proof. reflexivity. Qed.

Example pick_first_url_needs_a_body :
  pick_first_url "no link http:// here, ftp://x" = None.
Proof. reflexivity. Qed.

(** Outside ASCII: the URL ends before a no-break space U+00A0 and before an
    ideographic space U+3000, which [\s] matches in a [str]; the long s
    U+017F stands for the "s" of the scheme; the unit separator U+001F is
    whitespace too. *)
Example pick_first_url_unicode_space :
  pick_first_url (of_string "https://a.com/x" ++ [0xA0%N] ++ of_string "y")
    = Some (of_string "https://a.com/x") /\
  pick_first_url (of_string "https://example.com/p" ++ [0x3000%N] ++ of_string "youtube.com")
    = Some (of_string "https://example.com/p") /\
  pick_first_url (of_string "see http" ++ [0x17F%N] ++ of_string "://x.com/a b")
    = Some (of_string "http" ++ [0x17F%N] ++ of_string "://x.com/a") /\
  pick_first_url (of_string "https://a" ++ [0x1F%N] ++ of_string "b")
    = Some (of_string "https://a") /\
  pick_first_url (of_string "http://" ++ [0x3000%N]) = None.
Proof. repeat split. Qed.

(** ** Access control (C7, C9) *)

Local Ltac unfold_eff :=
  unfold mbind, M_bind, Eff.bind, Eff.try_except, Eff.ret, Eff.raise, Eff.emit,
    Eff.get_fs, Eff.put_fs in *.

Section AccessControl.

Context (cfg : config) (env : environment).

Lemma call_ok a st :
  transport env a = None ->
  call env a st = (Eff.Ok tt, State (trace st ++ [Sent a]) (fs st)).
Proof. unfold call. by intros ->. Qed.

Lemma call_raises a err st :
  transport env a = Some err ->
  call env a st = (Eff.Raised err, State (trace st ++ [Failed a err]) (fs st)).
Proof. unfold call. by intros ->. Qed.

Lemma not_whitelisted_iff cid :
  not_whitelisted cfg cid = true <->
  match cid with Some c => c ∉ WHITELIST cfg | None => True end.
Proof.
  destruct cid as [c|]; simpl; [|done]. by rewrite bool_decide_eq_true.
Qed.

(** What the check does, case by case. *)
Lemma reject_if_not_whitelisted_run u st :
  reject_if_not_whitelisted cfg env u st =
  if not_whitelisted cfg (effective_chat u) then
    match transport env (ReplyText NOT_ALLOWED) with
    | None =>
        (Eff.Ok true,
         State (trace st ++
                  [Sent (ReplyText NOT_ALLOWED);
                   Logged ("Rejected message from non-whitelisted chat "
                             +:+ Fmt.opt_int (effective_chat u))])
               (fs st))
    | Some err =>
        (Eff.Ok true, State (trace st ++ [Failed (ReplyText NOT_ALLOWED) err]) (fs st))
    end
  else (Eff.Ok false, st).
Proof.
  unfold reject_if_not_whitelisted.
  destruct (not_whitelisted cfg (effective_chat u)); [|done].
  unfold_eff. unfold log_warning, Eff.emit.
  destruct (transport env (ReplyText NOT_ALLOWED)) as [err|] eqn:Ht.
  - by rewrite (call_raises _ _ _ Ht).
  - rewrite (call_ok _ _ Ht). simpl. by rewrite <- app_assoc.
Qed.

End AccessControl.

(** C7 (as the code has it).  The check never raises and leaves the file
    system alone.  For a chat of the allow-list it answers "go on" and does
    nothing else.  For any other update (a chat outside the list, or no chat
    at all) it answers "rejected" after exactly one transport call, the
    warning; when that call goes through the rejection is logged as well;
    when it raises, the exception is swallowed and nothing is logged. *)
Theorem reject_if_not_whitelisted_outcome cfg env u st :
  exists b tr,
    reject_if_not_whitelisted cfg env u st = (Eff.Ok b, State (trace st ++ tr) (fs st)) /\
    let allowed := b = false /\ tr = [] in
    let denied :=
      b = true /\ attempts tr = [ReplyText NOT_ALLOWED] /\
      match transport env (ReplyText NOT_ALLOWED) with
      | None =>
          deliveries tr = [ReplyText NOT_ALLOWED] /\
          log_lines tr = ["Rejected message from non-whitelisted chat "
                            +:+ Fmt.opt_int (effective_chat u)]
      | Some _ => deliveries tr = [] /\ log_lines tr = []
      end in
    match effective_chat u with
    | Some c => if decide (c ∈ WHITELIST cfg) then allowed else denied
    | None => denied
    end.
Proof.
  rewrite reject_if_not_whitelisted_run.
  destruct (effective_chat u) as [c|]; cbn [not_whitelisted].
  - destruct (decide (c ∈ WHITELIST cfg)) as [Hin|Hout].
    + rewrite bool_decide_eq_false_2 by naive_solver. exists false, [].
      destruct st; cbn. by rewrite app_nil_r.
    + rewrite bool_decide_eq_true_2 by done.
      destruct (transport env (ReplyText NOT_ALLOWED)) as [err|];
        [by exists true, [Failed (ReplyText NOT_ALLOWED) err]
        |by eexists true, [Sent _; Logged _]].
  - destruct (transport env (ReplyText NOT_ALLOWED)) as [err|];
      [by exists true, [Failed (ReplyText NOT_ALLOWED) err]
      |by eexists true, [Sent _; Logged _]].
Qed.

(** C9.  An unset or empty [WHITELIST] variable gives the empty set, and with
    the empty set every update is rejected, whatever its chat and also when
    it has none: the handler stops after the check, nothing is handed to the
    extraction backend and nothing is uploaded. *)
Theorem empty_whitelist_rejects_everyone :
  Env.parse_whitelist None = Some ∅ /\
  Env.parse_whitelist (Some "") = Some ∅ /\
  forall max_size env u st,
    not_whitelisted (Config ∅ max_size) (effective_chat u) = true /\
    exists st',
      reject_if_not_whitelisted (Config ∅ max_size) env u st = (Eff.Ok true, st') /\
      handle_message (Config ∅ max_size) env u st = (Eff.Ok tt, st') /\
      extractions (trace st') = extractions (trace st) /\
      uploads (trace st') = uploads (trace st).
Proof.
  split; [reflexivity|]. split; [reflexivity|].
  intros max_size env u st.
  assert (not_whitelisted (Config ∅ max_size) (effective_chat u) = true) as Hnw.
  { apply not_whitelisted_iff. destruct (effective_chat u); [|done]. simpl. set_solver. }
  split; [done|].
  unfold handle_message. unfold_eff.
  rewrite reject_if_not_whitelisted_run, Hnw.
  unfold uploads, extractions, attempts.
  destruct (transport env (ReplyText NOT_ALLOWED)); eexists; repeat split;
    simpl; rewrite ?omap_app, ?List.filter_app; simpl; by rewrite ?app_nil_r.
Qed.

(** ** The handler step by step *)

Section HandlerFacts.

Context (cfg : config) (env : environment).

Lemma send_typing_run c st :
  send_typing env c st = (Eff.Ok tt, State (trace st ++ [typing_event env c]) (fs st)).
Proof.
  unfold send_typing, typing_event, call. unfold_eff.
  by destruct (transport env (SendChatAction c)).
Qed.

Lemma call_run a st :
  call env a st =
  match transport env a with
  | None => (Eff.Ok tt, State (trace st ++ [Sent a]) (fs st))
  | Some err => (Eff.Raised err, State (trace st ++ [Failed a err]) (fs st))
  end.
Proof. unfold call. by destruct (transport env a). Qed.

Lemma stat_size_run (p : path) st size :
  fs st !! p.1 ≫= (fun dir => dir !! p.2) = Some size ->
  stat_size p st = (Eff.Ok size, st).
Proof. unfold stat_size. unfold_eff. by intros ->. Qed.

(** The three attempts of the delivery, for a file that is there. *)
Lemma deliver_run (p : path) st size :
  fs st !! p.1 ≫= (fun dir => dir !! p.2) = Some size ->
  deliver env p st =
  match transport env (ReplyVideo p) with
  | None => (Eff.Ok tt, State (trace st ++ [Sent (ReplyVideo p)]) (fs st))
  | Some e1 =>
      let tr1 := [Failed (ReplyVideo p) e1; Logged ("Failed to send as video: " +:+ e1)] in
      match transport env (ReplyDocument p) with
      | None =>
          (Eff.Ok tt, State (trace st ++ tr1 ++ [Sent (ReplyDocument p)]) (fs st))
      | Some e2 =>
          let tr2 := tr1 ++ [Failed (ReplyDocument p) e2] in
          match transport env (ReplyText (upload_failed e2)) with
          | None =>
              (Eff.Ok tt,
               State (trace st ++ tr2 ++ [Sent (ReplyText (upload_failed e2))]) (fs st))
          | Some e3 =>
              (Eff.Raised e3,
               State (trace st ++ tr2 ++ [Failed (ReplyText (upload_failed e2)) e3]) (fs st))
          end
      end
  end.
Proof.
  intros Hfile. unfold deliver, open_rb, log_warning. unfold_eff.
  rewrite (stat_size_run _ _ _ Hfile), call_run.
  destruct (transport env (ReplyVideo p)) as [e1|]; [|done]. simpl.
  rewrite (stat_size_run p _ size) by done. rewrite call_run. simpl.
  destruct (transport env (ReplyDocument p)) as [e2|]; simpl.
  - rewrite call_run. simpl.
    destruct (transport env (ReplyText (upload_failed e2))); simpl;
      by rewrite <- !app_assoc.
  - by rewrite <- !app_assoc.
Qed.

Lemma produced_file url td st name size :
  produced (backend env url) = Some (name, size) ->
  fs (after_download env url td st) !! td ≫= (fun dir => dir !! name) = Some size.
Proof.
  unfold after_download. cbn [fs]. rewrite lookup_insert_eq.
  unfold produced. destruct (backend env url) as [|[|a n] files]; try discriminate. simpl.
  destruct (files !! String a n) eqn:E; simpl; [|discriminate].
  by intros [= <- <-].
Qed.

(** The body of the [with] block, by what the download amounts to. *)
Lemma in_workspace_run url td st :
  in_workspace cfg env url td st =
  match produced (backend env url) with
  | None => call env (ReplyText COULD_NOT_DOWNLOAD) (after_download env url td st)
  | Some (name, size) =>
      if gt_int (bytes_to_mb size) (MAX_SIZE_MB cfg)
      then call env (ReplyText (too_large cfg size)) (after_download env url td st)
      else deliver env (td, name) (after_download env url td st)
  end.
Proof.
  unfold in_workspace, http_head, ytdlp_download, after_download, produced.
  unfold_eff. simpl. rewrite <- !app_assoc. simpl.
  destruct (backend env url) as [err files|name files]; simpl; [done|].
  destruct name as [|a name]; simpl; [done|].
  destruct (files !! String a name) as [size|] eqn:Hfile; simpl.
  - rewrite (stat_size_run (td, String a name) _ size).
    + simpl. by destruct (gt_int _ _).
    + cbn [fs fst snd]. rewrite lookup_insert_eq. exact Hfile.
  - done.
Qed.

(** The handler up to the [with] block. *)
Lemma handle_message_run u st :
  handle_message cfg env u st =
  match effective_chat u with
  | Some c =>
      if decide (c ∈ WHITELIST cfg) then
        match pick_first_url (text_of u) with
        | Some url =>
            if domain_gate url then
              Eff.with_tempdir (in_workspace cfg env url)
                (State (trace st ++ [typing_event env c]) (fs st))
            else (Eff.Ok tt, st)
        | None => (Eff.Ok tt, st)
        end
      else (Eff.Ok tt, (reject_if_not_whitelisted cfg env u st).2)
  | None => (Eff.Ok tt, (reject_if_not_whitelisted cfg env u st).2)
  end.
Proof.
  unfold handle_message. unfold_eff.
  rewrite reject_if_not_whitelisted_run.
  destruct (effective_chat u) as [c|] eqn:Hc; simpl.
  - destruct (decide (c ∈ WHITELIST cfg)) as [Hin|Hout].
    + rewrite bool_decide_eq_false_2 by naive_solver.
      destruct (pick_first_url (text_of u)) as [url|]; [|done].
      destruct (domain_gate url); simpl; [|done].
      unfold chat_id. rewrite Hc. unfold_eff. by rewrite send_typing_run.
    + rewrite bool_decide_eq_true_2 by done.
      by destruct (transport env (ReplyText NOT_ALLOWED)).
  - by destruct (transport env (ReplyText NOT_ALLOWED)).
Qed.

End HandlerFacts.

(** ** Sizes and the streaming downloader (C3, C10) *)

Module SizeFacts.

(** The float comparison of the code is the integer comparison with the
    ceiling in bytes. *)
Lemma gt_int_mb b m :
  gt_int (bytes_to_mb b) m = true <-> (m * (1024 * 1024) < b)%Z.
Proof.
  unfold gt_int. rewrite negb_true_iff, <- not_true_iff_false, Qle_bool_iff.
  unfold bytes_to_mb, Qle, Qdiv, Qmult, Qinv, inject_Z. simpl. lia.
Qed.

Lemma gt_int_mb_false b m :
  gt_int (bytes_to_mb b) m = false <-> (b <= m * (1024 * 1024))%Z.
Proof. rewrite <- not_true_iff_false, gt_int_mb. lia. Qed.

(** The tenths that are printed differ from the measured size by at most
    half a tenth. *)
Lemma tenths_rounds x :
  (Qabs (inject_Z (Fmt.tenths x) / 10 - x) <= 1 # 20)%Q.
Proof.
  destruct x as [n d]. unfold Fmt.tenths. cbn [Qnum Qden].
  set (q := (10 * n / Z.pos d)%Z). set (r := ((10 * n) mod Z.pos d)%Z).
  assert (10 * n = Z.pos d * q + r)%Z as Hdiv by (apply Z.div_mod; lia).
  assert (0 <= r < Z.pos d)%Z as Hr by (apply Z.mod_pos_bound; lia).
  apply Qabs_Qle_condition.
  assert (forall t : Z, (2 * Z.pos d * t <= 20 * n + Z.pos d)%Z ->
                        (20 * n - Z.pos d <= 2 * Z.pos d * t)%Z ->
    (- (1 # 20) <= inject_Z t / 10 - (n # d) /\ inject_Z t / 10 - (n # d) <= 1 # 20)%Q) as Hq.
  { intros t H1 H2.
    unfold Qle, Qminus, Qplus, Qopp, Qdiv, Qmult, Qinv, inject_Z. simpl. lia. }
  destruct (2 * r <? Z.pos d)%Z eqn:E1; [apply Hq; lia|].
  destruct (Z.pos d <? 2 * r)%Z eqn:E2; [apply Hq; lia|].
  destruct (Z.even q); apply Hq; lia.
Qed.

End SizeFacts.

Module StreamFacts.
Import Stream.

Lemma CHUNK_SIZE_16K : Z.of_nat CHUNK_SIZE = (16 * 1024)%Z.
Proof. unfold CHUNK_SIZE. by rewrite Z2Nat.id. Qed.

Lemma CHUNK_SIZE_pos : 0 < CHUNK_SIZE.
Proof. unfold CHUNK_SIZE. apply Nat2Z.inj_lt. rewrite Z2Nat.id; done. Qed.

Lemma pieces_concat n data : forall fuel,
  0 < n -> length data <= fuel -> concat (pieces fuel n data) = data.
Proof.
  intros fuel Hn. revert data. induction fuel as [|fuel IH]; intros data Hlen.
  - destruct data; [done|simpl in Hlen; lia].
  - destruct data as [|b data]; [done|].
    cbn [pieces concat]. rewrite IH.
    + apply firstn_skipn.
    + rewrite length_drop. simpl in *. lia.
Qed.

Lemma pieces_bound n data : forall fuel,
  Forall (fun c => length c <= n) (pieces fuel n data).
Proof.
  intros fuel. revert data. induction fuel as [|fuel IH]; intros data; [constructor|].
  destruct data as [|b data]; [constructor|].
  cbn [pieces]. constructor; [|apply IH]. rewrite length_take. lia.
Qed.

(** The chunks carry the body, in order, in pieces of at most [n] bytes. *)
Lemma iter_chunked_concat n arrivals :
  0 < n -> concat (iter_chunked n arrivals) = concat arrivals.
Proof.
  intros Hn. unfold iter_chunked. induction arrivals as [|a arrivals IH]; [done|].
  cbn [map concat]. by rewrite concat_app, IH, pieces_concat.
Qed.

Lemma iter_chunked_bound n arrivals :
  Forall (fun c => length c <= n) (iter_chunked n arrivals).
Proof.
  unfold iter_chunked. induction arrivals as [|a arrivals IH]; [constructor|].
  cbn [map concat]. apply Forall_app. split; [apply pieces_bound|apply IH].
Qed.

Lemma iter_chunked_pair n a b :
  iter_chunked n [a; b] = pieces (length a) n a ++ pieces (length b) n b.
Proof. unfold iter_chunked. cbn [map concat]. by rewrite app_nil_r. Qed.

(** An arrival that fits in one chunk is handed over as it is. *)
Lemma pieces_single n b :
  b <> [] -> length b <= n -> pieces (length b) n b = [b].
Proof.
  destruct b as [|x b]; [done|]. intros _ Hlen.
  cbn [length pieces]. rewrite take_ge, drop_ge by done.
  by destruct (length b).
Qed.

Lemma total_cons c chunks : total (c :: chunks) = (Z.of_nat (length c) + total chunks)%Z.
Proof. unfold total. cbn [concat]. rewrite length_app. lia. Qed.

Lemma total_nonneg chunks : (0 <= total chunks)%Z.
Proof. unfold total. lia. Qed.

(** While the running size stays within the ceiling every chunk is written. *)
Lemma consume_all m broken : forall chunks size written,
  (size + total chunks <= m * (1024 * 1024))%Z ->
  consume m size written chunks broken =
  ((negb broken, (size + total chunks)%Z), written ++ concat chunks).
Proof.
  induction chunks as [|c chunks IH]; intros size written Hle.
  - cbn [consume concat]. unfold total. simpl. by rewrite Z.add_0_r, app_nil_r.
  - rewrite total_cons in Hle. pose proof (total_nonneg chunks).
    destruct c as [|b c].
    + cbn [consume]. rewrite IH by (simpl in Hle; lia).
      rewrite total_cons. simpl. by rewrite Z.add_0_l.
    + cbn [consume].
      destruct (gt_int _ m) eqn:Hgt.
      * apply SizeFacts.gt_int_mb in Hgt. lia.
      * rewrite IH by lia. rewrite total_cons, Z.add_assoc.
        cbn [concat]. by rewrite <- app_assoc.
Qed.

(** The first chunk that takes the running size past the ceiling ends the
    loop: it is counted, but neither it nor any later chunk is written. *)
Lemma consume_cross m broken c post : forall pre size written,
  (size + total pre <= m * (1024 * 1024))%Z ->
  (m * (1024 * 1024) < size + total pre + Z.of_nat (length c))%Z ->
  consume m size written (pre ++ c :: post) broken =
  ((false, (size + total pre + Z.of_nat (length c))%Z), written ++ concat pre).
Proof.
  induction pre as [|p pre IH]; intros size written Hle Hgt.
  - unfold total in *. simpl in *. rewrite Z.add_0_r in *. rewrite app_nil_r.
    destruct c as [|b c]; [simpl in Hgt; lia|].
    cbn [consume]. by rewrite (proj2 (SizeFacts.gt_int_mb _ _)) by lia.
  - rewrite total_cons in *. pose proof (total_nonneg pre).
    destruct p as [|b p].
    + cbn [app consume]. rewrite IH by (simpl in *; lia).
      simpl. by rewrite Z.add_0_l.
    + cbn [app consume].
      destruct (gt_int _ m) eqn:Hgt'.
      * apply SizeFacts.gt_int_mb in Hgt'. lia.
      * rewrite IH by lia. rewrite !Z.add_assoc.
        cbn [concat]. by rewrite <- app_assoc.
Qed.



End StreamFacts.

(** The body of 1 MiB under a ceiling of 1 MB. *)
Module MiBFacts.
Import ScenarioMiB.

Lemma chunks_total : total chunks = (1024 * 1024)%Z.
Proof.
  unfold total.
  rewrite StreamFacts.iter_chunked_concat by apply StreamFacts.CHUNK_SIZE_pos.
  cbn [concat]. rewrite app_nil_r. unfold data. rewrite repeat_length.
  by rewrite Z2Nat.id.
Qed.





Lemma data_nonempty : data <> [].
Proof.
  assert (length data = Z.to_nat (1024 * 1024)) as Hlen by apply repeat_length.
  intros Hnil. rewrite Hnil in Hlen. cbn [length] in Hlen. lia.
Qed.

Lemma two_arrivals :
  Stream.iter_chunked Stream.CHUNK_SIZE [data; [Byte.x01]]
  = Stream.pieces (length data) Stream.CHUNK_SIZE data ++ [Byte.x01] :: [].
Proof.
  rewrite (StreamFacts.iter_chunked_pair Stream.CHUNK_SIZE data [Byte.x01]).
  rewrite (StreamFacts.pieces_single Stream.CHUNK_SIZE [Byte.x01]); [done|done|].
  pose proof StreamFacts.CHUNK_SIZE_pos. simpl. lia.
Qed.

Lemma first_arrival_total :
  total (Stream.pieces (length data) Stream.CHUNK_SIZE data) = (1024 * 1024)%Z.
Proof.
  rewrite <- chunks_total. unfold total, Stream.iter_chunked.
  cbn [map concat]. by rewrite app_nil_r.
Qed.

Lemma first_arrival_concat :
  concat (Stream.pieces (length data) Stream.CHUNK_SIZE data) = data.
Proof. apply StreamFacts.pieces_concat; [apply StreamFacts.CHUNK_SIZE_pos|done]. Qed.

End MiBFacts.

(** C3 (as the code has it).  The downloader asks for chunks of 16 KB and
    adds up their sizes as they come.  The first chunk that takes the sum
    past the ceiling ends the download: the call returns failure with the sum
    including that chunk, and neither that chunk nor any later one is
    written.  The chunks written before it stay in the file, which is not
    deleted. *)
Theorem stream_stops_writing_at_ceiling cfg arrivals broken before pre c post :
  Stream.iter_chunked Stream.CHUNK_SIZE arrivals = pre ++ c :: post ->
  (total pre <= ceiling cfg)%Z ->
  (ceiling cfg < total pre + Z.of_nat (length c))%Z ->
  Z.of_nat Stream.CHUNK_SIZE = (16 * 1024)%Z /\
  Forall (fun chunk => length chunk <= Stream.CHUNK_SIZE) (pre ++ c :: post) /\
  Stream.http_get_to_file cfg (Stream.Body arrivals broken) before =
    ((false, (total pre + Z.of_nat (length c))%Z), Some (concat pre)).
Proof.
  intros Hchunks Hle Hgt. split; [apply StreamFacts.CHUNK_SIZE_16K|]. split.
  - rewrite <- Hchunks. apply StreamFacts.iter_chunked_bound.
  - unfold Stream.http_get_to_file. rewrite Hchunks.
    by rewrite (StreamFacts.consume_cross _ _ _ _ pre 0 []).
Qed.

Lemma stream_stops_writing_at_ceiling_witness :
  Stream.http_get_to_file ScenarioMiB.cfg
    (Stream.Body [ScenarioMiB.data; [Byte.x01]] false) None
  = ((false,
      (total (Stream.pieces (length ScenarioMiB.data) Stream.CHUNK_SIZE ScenarioMiB.data)
       + Z.of_nat (length [Byte.x01]))%Z),
     Some (concat (Stream.pieces (length ScenarioMiB.data) Stream.CHUNK_SIZE
                     ScenarioMiB.data))).
Proof.
  apply (stream_stops_writing_at_ceiling ScenarioMiB.cfg
           [ScenarioMiB.data; [Byte.x01]] false None
           (Stream.pieces (length ScenarioMiB.data) Stream.CHUNK_SIZE ScenarioMiB.data)
           [Byte.x01] []).
  - exact MiBFacts.two_arrivals.
  - rewrite MiBFacts.first_arrival_total. unfold ceiling. simpl. lia.
  - rewrite MiBFacts.first_arrival_total. unfold ceiling. simpl. lia.
Defined.

(** One MiB of body data followed by one more byte, under a ceiling of 1 MB:
    the call fails, and the file is still there with the first MiB in it. *)
Lemma stream_keeps_partial_file :
  Stream.http_get_to_file ScenarioMiB.cfg
    (Stream.Body [ScenarioMiB.data; [Byte.x01]] false) None
  = ((false, (1024 * 1024 + 1)%Z), Some ScenarioMiB.data) /\
  ScenarioMiB.data <> [].
Proof.
  split.
  - unfold Stream.http_get_to_file. rewrite MiBFacts.two_arrivals.
    rewrite StreamFacts.consume_cross;
      rewrite MiBFacts.first_arrival_total, ?MiBFacts.first_arrival_concat; done.
  - exact MiBFacts.data_nonempty.
Qed.

(** ** The handler as a whole *)

Section WholeHandler.

Context (cfg : config) (env : environment).

(** An update that passes the gates is handled inside a new scratch
    directory, which is removed when the body is left. *)
Lemma handle_message_passes u url st :
  passes_gates cfg u url ->
  exists c,
    effective_chat u = Some c /\
    handle_message cfg env u st =
    Eff.with_tempdir (in_workspace cfg env url)
      (State (trace st ++ [typing_event env c]) (fs st)).
Proof.
  intros ((c & Hc & Hin) & Hurl & Hgate). exists c. split; [done|].
  rewrite handle_message_run, Hc, Hurl, Hgate. by rewrite decide_True.
Qed.

(** The body of the [with] block touches the file system only when the
    backend writes into the output directory, and after the download it only
    talks to the chat and logs. *)
Lemma in_workspace_frame url td st :
  exists r tr,
    in_workspace cfg env url td st =
      (r, State (trace st ++ [Head url; Extract url td] ++ tr)
                (<[td := backend_files (backend env url)]> (fs st))) /\
    Forall (fun ev => is_talk ev = true) tr.
Proof.
  rewrite in_workspace_run.
  destruct (produced (backend env url)) as [[name size]|] eqn:Hprod.
  - destruct (gt_int _ _).
    + rewrite call_run. unfold after_download. cbn [trace fs].
      destruct (transport env _); eexists _, [_]; rewrite <- app_assoc;
        (split; [reflexivity|]); by repeat constructor.
    + rewrite (deliver_run env (td, name) _ size) by by apply produced_file.
      unfold after_download. cbn [trace fs].
      repeat (destruct (transport env _); cbn zeta);
        eexists _, _; rewrite <- !app_assoc;
        (split; [reflexivity|]); by repeat constructor.
  - rewrite call_run. unfold after_download. cbn [trace fs].
    destruct (transport env _); eexists _, [_]; rewrite <- app_assoc;
      (split; [reflexivity|]); by repeat constructor.
Qed.

End WholeHandler.

Local Ltac not_in_list H :=
  repeat (apply elem_of_cons in H as [H|H]; [discriminate|]);
  by apply elem_of_nil in H.

(** C8.  Whatever the transport, the network and the backend do, and whether
    the handler returns or raises, the file system after the handler is the
    file system before it: a scratch directory the handler made is gone, with
    every file the backend left in it, and removing it is the last thing the
    handler does. *)
Theorem scratch_directory_is_removed cfg env u st :
  let st' := (handle_message cfg env u st).2 in
  fs st' = fs st /\
  exists tr,
    trace st' = trace st ++ tr /\
    forall d, MkTemp d ∈ tr ->
      fs st !! d = None /\ fs st' !! d = None /\ last tr = Some (RmTree d).
Proof.
  rewrite handle_message_run.
  assert (let st' := (reject_if_not_whitelisted cfg env u st).2 in
          fs st' = fs st /\ exists tr, trace st' = trace st ++ tr /\
            forall d, MkTemp d ∈ tr ->
              fs st !! d = None /\ fs st' !! d = None /\ last tr = Some (RmTree d)) as Hreject.
  { rewrite reject_if_not_whitelisted_run.
    destruct (not_whitelisted _ _); [destruct (transport env _)|]; cbn.
    - split; [done|]. eexists [_]. split; [done|]. intros d Hd. not_in_list Hd.
    - split; [done|]. eexists [_; _]. split; [done|]. intros d Hd. not_in_list Hd.
    - split; [done|]. exists []. split; [by rewrite app_nil_r|]. intros d Hd. not_in_list Hd. }
  destruct (effective_chat u) as [c|]; [|exact Hreject].
  destruct (decide (c ∈ WHITELIST cfg)); [|exact Hreject]. clear Hreject.
  assert (let st' := (Eff.Ok (), st).2 in
          fs st' = fs st /\ exists tr, trace st' = trace st ++ tr /\
            forall d, MkTemp d ∈ tr ->
              fs st !! d = None /\ fs st' !! d = None /\ last tr = Some (RmTree d)) as Hnothing.
  { cbn. split; [done|]. exists []. split; [by rewrite app_nil_r|]. intros d Hd. not_in_list Hd. }
  destruct (pick_first_url (text_of u)) as [url|]; [|exact Hnothing].
  destruct (domain_gate url); [|exact Hnothing]. clear Hnothing.
  unfold Eff.with_tempdir. cbn [trace fs].
  set (td := fresh (dom (fs st))).
  assert (fs st !! td = None) as Hfresh by (apply not_elem_of_dom, is_fresh).
  destruct (in_workspace_frame cfg env url td
              (State ((trace st ++ [typing_event env c]) ++ [MkTemp td]) (<[td:=∅]> (fs st))))
    as (r & tr & -> & Htr).
  cbn [trace fs snd].
  rewrite delete_insert_eq, delete_insert_id by done. split; [done|].
  exists ([typing_event env c; MkTemp td; Head url; Extract url td] ++ tr ++ [RmTree td]).
  split; [by rewrite <- !app_assoc|].
  intros d Hd.
  assert (d = td) as ->.
  { apply elem_of_app in Hd as [Hd|Hd]; [|apply elem_of_app in Hd as [Hd|Hd]].
    - apply elem_of_cons in Hd as [Hd|Hd].
      { unfold typing_event in Hd. by destruct (transport env _). }
      apply elem_of_cons in Hd as [Hd|Hd]; [congruence|]. not_in_list Hd.
    - rewrite Forall_forall in Htr. apply Htr in Hd. discriminate.
    - not_in_list Hd. }
  repeat split; [done..|].
  rewrite app_assoc. apply last_snoc.
Qed.

(** ** The handler after the gates (C2, C4, C6, C10) *)

Section AfterTheGates.

Context (cfg : config) (env : environment).

(** The run of the handler for an update that passes the gates. *)
Lemma run_passes u url files :
  passes_gates cfg u url ->
  exists c,
    effective_chat u = Some c /\
    run (handle_message cfg env u) files =
    let td := fresh (dom files) in
    let start :=
      State [typing_event env c; MkTemp td; Head url; Extract url td]
            (<[td := backend_files (backend env url)]> (<[td := ∅]> files)) in
    let '(r, st) :=
      match produced (backend env url) with
      | None => call env (ReplyText COULD_NOT_DOWNLOAD) start
      | Some (name, size) =>
          if gt_int (bytes_to_mb size) (MAX_SIZE_MB cfg)
          then call env (ReplyText (too_large cfg size)) start
          else deliver env (td, name) start
      end in
    (r, trace st ++ [RmTree td]).
Proof.
  intros Hpass. destruct (handle_message_passes cfg env u url (State [] files) Hpass)
    as (c & Hc & Hrun).
  exists c. split; [done|]. unfold run. rewrite Hrun.
  unfold Eff.with_tempdir. cbn [trace fs app]. rewrite in_workspace_run.
  unfold after_download. cbn [trace fs app].
  destruct (produced (backend env url)) as [[name size]|];
    [destruct (gt_int _ _)|]; by destruct (_ env _ _) as [r st].
Qed.

Lemma gt_int_Qlt x n : gt_int x n = true <-> (inject_Z n < x)%Q.
Proof.
  unfold gt_int. rewrite negb_true_iff, <- not_true_iff_false, Qle_bool_iff.
  split; [apply Qnot_le_lt|apply Qlt_not_le].
Qed.

End AfterTheGates.

Local Ltac split_typing env c :=
  unfold typing_event; destruct (transport env (SendChatAction c)).

(** C2 (as the code has it).  When the download produced a file whose size in
    MB is above the ceiling, the one reply the handler tries is the
    "too large" text, and no upload is tried; the chat receives that text
    when the transport takes it.  The text names the ceiling and the size in
    MB with one decimal: the measured size rounded to the nearest tenth of a
    MB, so up to 0.05 MB away from it. *)
Theorem oversize_file_is_reported_not_uploaded cfg env u url files name size :
  passes_gates cfg u url ->
  produced (backend env url) = Some (name, size) ->
  (inject_Z (MAX_SIZE_MB cfg) < bytes_to_mb size)%Q ->
  exists r tr,
    run (handle_message cfg env u) files = (r, tr) /\
    replies_tried tr = [ReplyText (too_large cfg size)] /\
    uploads tr = [] /\
    match transport env (ReplyText (too_large cfg size)) with
    | None => r = Eff.Ok tt /\ replies_sent tr = [ReplyText (too_large cfg size)]
    | Some err => r = Eff.Raised err /\ replies_sent tr = []
    end /\
    (let t := Fmt.tenths (bytes_to_mb size) in
     too_large cfg size =
       "⚠️ File is too large (" +:+ (pretty (t / 10)%Z +:+ "." +:+ pretty (t mod 10)%Z)
         +:+ " MB). Limit is " +:+ pretty (MAX_SIZE_MB cfg) +:+ " MB." /\
     (Qabs (inject_Z t / 10 - bytes_to_mb size) <= 1 # 20)%Q).
Proof.
  intros Hpass Hprod Hbig. apply gt_int_Qlt in Hbig.
  destruct (run_passes cfg env u url files Hpass) as (c & Hc & ->).
  cbn zeta. rewrite Hprod, Hbig, call_run.
  destruct (transport env (ReplyText (too_large cfg size))) as [err|] eqn:Ht;
    eexists _, _; (split; [reflexivity|]); cbn [trace app];
    repeat split; try apply SizeFacts.tenths_rounds;
    by split_typing env c.
Qed.

(** C4 (as the code has it).  With a downloaded file within the ceiling the
    replies are tried in the order video, document, error text, each one only
    when the one before it raised; the error text carries the text of the
    document upload's failure.  At most one reply reaches the chat: the first
    one that does not raise.  When all three raise, the chat receives nothing
    and the last exception leaves the handler. *)
Theorem delivery_tries_video_document_text cfg env u url files name size :
  passes_gates cfg u url ->
  produced (backend env url) = Some (name, size) ->
  (bytes_to_mb size <= inject_Z (MAX_SIZE_MB cfg))%Q ->
  exists r tr,
    run (handle_message cfg env u) files = (r, tr) /\
    let file := (fresh (dom files), name) in
    match transport env (ReplyVideo file) with
    | None =>
        r = Eff.Ok tt /\ replies_tried tr = [ReplyVideo file] /\
        replies_sent tr = [ReplyVideo file]
    | Some e1 =>
        match transport env (ReplyDocument file) with
        | None =>
            r = Eff.Ok tt /\ replies_tried tr = [ReplyVideo file; ReplyDocument file] /\
            replies_sent tr = [ReplyDocument file]
        | Some e2 =>
            replies_tried tr =
              [ReplyVideo file; ReplyDocument file; ReplyText ("❌ Upload failed: " +:+ e2)] /\
            match transport env (ReplyText ("❌ Upload failed: " +:+ e2)) with
            | None =>
                r = Eff.Ok tt /\ replies_sent tr = [ReplyText ("❌ Upload failed: " +:+ e2)]
            | Some e3 => r = Eff.Raised e3 /\ replies_sent tr = []
            end
        end
    end.
Proof.
  intros Hpass Hprod Hfits.
  assert (gt_int (bytes_to_mb size) (MAX_SIZE_MB cfg) = false) as Hgt.
  { apply not_true_iff_false. rewrite gt_int_Qlt. by apply Qle_not_lt. }
  destruct (run_passes cfg env u url files Hpass) as (c & Hc & ->).
  cbn zeta. rewrite Hprod, Hgt.
  rewrite (deliver_run env (fresh (dom files), name) _ size).
  2: exact (produced_file env url _
              (State [typing_event env c; MkTemp _] (<[_ := ∅]> files)) name size Hprod).
  unfold upload_failed.
  destruct (transport env (ReplyVideo _)) as [e1|];
    [destruct (transport env (ReplyDocument _)) as [e2|];
     [destruct (transport env (ReplyText _)) as [e3|]|]|];
    eexists _, _; (split; [reflexivity|]); cbn [trace app];
    repeat split; by split_typing env c.
Qed.

(** C6 (as the code has it).  When the extraction backend raises, the
    exception stops in the handler: under the same transport the run is the
    one of a backend that returns without a file, whatever the exception
    was.  The one reply tried is the "couldn't download" text and no upload
    is tried; the chat receives that reply, and the handler returns
    normally, whenever the transport takes it.  When the transport refuses
    it, the chat receives nothing and the exception that leaves the handler
    is the transport's, from that reply. *)
Theorem extraction_error_is_download_failure cfg env u url files err left_behind :
  passes_gates cfg u url ->
  backend env url = BackendRaises err left_behind ->
  exists r tr,
    run (handle_message cfg env u) files = (r, tr) /\
    extractions tr = [url] /\
    replies_tried tr = [ReplyText COULD_NOT_DOWNLOAD] /\
    uploads tr = [] /\
    match transport env (ReplyText COULD_NOT_DOWNLOAD) with
    | None => r = Eff.Ok tt /\ replies_sent tr = [ReplyText COULD_NOT_DOWNLOAD]
    | Some e => r = Eff.Raised e /\ replies_sent tr = []
    end /\
    run (handle_message cfg
           (Environment (transport env) (head_request env)
              (fun _ => BackendReturns "" left_behind)) u) files = (r, tr).
Proof.
  intros Hpass Hraises.
  destruct (run_passes cfg env u url files Hpass) as (c & Hc & ->).
  destruct (run_passes cfg
              (Environment (transport env) (head_request env)
                 (fun _ => BackendReturns "" left_behind)) u url files Hpass)
    as (c' & Hc' & ->).
  assert (c' = c) as -> by congruence.
  cbn zeta. rewrite Hraises. cbn [produced backend backend_files]. rewrite !call_run.
  cbn [transport]. unfold typing_event. cbn [transport].
  destruct (transport env (ReplyText COULD_NOT_DOWNLOAD)) as [e|];
    eexists _, _; (split; [reflexivity|]); cbn [trace app];
    repeat split; by destruct (transport env (SendChatAction c)).
Qed.


(** ** Concrete runs *)

Lemma message_passes : passes_gates Scenario.cfg Scenario.message Scenario.youtu_be.
Proof.
  split; [|split; reflexivity].
  exists 7%Z. split; [reflexivity|]. unfold Scenario.cfg. cbn [WHITELIST].
  by apply elem_of_singleton_2.
Defined.


Lemma oversize_file_is_reported_not_uploaded_witness :
  exists r tr,
    run (handle_message Scenario.cfg
           (Environment Scenario.transport_up Scenario.no_head
              (Scenario.downloads (120 * 1024 * 1024)))
           Scenario.message) ∅ = (r, tr) /\
    replies_tried tr = [ReplyText "⚠️ File is too large (120.0 MB). Limit is 50 MB."] /\
    uploads tr = [].
Proof.
  destruct (oversize_file_is_reported_not_uploaded Scenario.cfg
              (Environment Scenario.transport_up Scenario.no_head
                 (Scenario.downloads (120 * 1024 * 1024)))
              Scenario.message Scenario.youtu_be ∅ "clip.mp4" (120 * 1024 * 1024)
              message_passes eq_refl eq_refl)
    as (r & tr & Hrun & Htried & Hup & _).
  exists r, tr. repeat split; [exact Hrun|exact Htried|exact Hup].
Defined.

(** Two files of different sizes just above the ceiling get the same reply,
    which gives the size as "50.0 MB" next to the limit of 50 MB: the reply
    does not hold the exact measured size. *)
Lemma oversize_reply_is_rounded :
  let text := "⚠️ File is too large (50.0 MB). Limit is 50 MB." in
  let env size :=
    Environment Scenario.transport_up Scenario.no_head (Scenario.downloads size) in
  let reply size :=
    replies_sent (run (handle_message Scenario.cfg (env size) Scenario.message) ∅).2 in
  reply (50 * 1024 * 1024 + 1)%Z = [ReplyText text] /\
  reply (50 * 1024 * 1024 + 2)%Z = [ReplyText text] /\
  ~ (bytes_to_mb (50 * 1024 * 1024 + 1) == 50)%Q.
Proof.
  intros text env reply. split; [|split].
  - vm_compute. reflexivity.
  - vm_compute. reflexivity.
  - intros H. unfold Qeq in H. vm_compute in H. discriminate.
Qed.

Lemma delivery_tries_video_document_text_witness :
  exists tr,
    run (handle_message Scenario.cfg
           (Environment
              (fun a => match a with ReplyVideo _ => Some "Bad Request" | _ => None end)
              Scenario.no_head (Scenario.downloads 1000))
           Scenario.message) ∅ = (Eff.Ok tt, tr) /\
    replies_tried tr = [ReplyVideo (1%positive, "clip.mp4"); ReplyDocument (1%positive, "clip.mp4")] /\
    replies_sent tr = [ReplyDocument (1%positive, "clip.mp4")].
Proof.
  destruct (delivery_tries_video_document_text Scenario.cfg
              (Environment
                 (fun a => match a with ReplyVideo _ => Some "Bad Request" | _ => None end)
                 Scenario.no_head (Scenario.downloads 1000))
              Scenario.message Scenario.youtu_be ∅ "clip.mp4" 1000
              message_passes eq_refl ltac:(discriminate))
    as (r & tr & Hrun & Hr & Htried & Hsent).
  exists tr. rewrite <- Hr. repeat split; [exact Hrun|exact Htried|exact Hsent].
Defined.

(** With a transport that refuses every call the three attempts are made
    and none of the three replies reaches the chat; the exception of the last
    attempt leaves the handler. *)
Lemma delivery_can_send_nothing :
  let '(r, tr) :=
    run (handle_message Scenario.cfg
           (Environment Scenario.transport_down Scenario.no_head (Scenario.downloads 1000))
           Scenario.message) ∅ in
  r = Eff.Raised "Timed out" /\
  replies_tried tr =
    [ReplyVideo (1%positive, "clip.mp4"); ReplyDocument (1%positive, "clip.mp4");
     ReplyText "❌ Upload failed: Timed out"] /\
  replies_sent tr = [].
Proof. vm_compute. repeat split. Qed.

(** A chat outside the allow-list whose warning cannot be sent: the check
    rejects, and the log stays empty. *)
Lemma rejection_is_not_logged_when_warning_fails :
  let result :=
    run (reject_if_not_whitelisted Scenario.cfg
           (Environment Scenario.transport_down Scenario.no_head (Scenario.downloads 1000))
           (Scenario.from_chat 8 "hello")) ∅ in
  (8%Z ∉ WHITELIST Scenario.cfg) /\
  result.1 = Eff.Ok true /\
  attempts result.2 = [ReplyText NOT_ALLOWED] /\
  deliveries result.2 = [] /\
  log_lines result.2 = [].
Proof.
  intros result. split.
  - unfold Scenario.cfg. cbn [WHITELIST]. set_solver.
  - vm_compute. repeat split.
Qed.

Lemma extraction_error_is_download_failure_witness :
  exists tr,
    run (handle_message Scenario.cfg
           (Environment Scenario.transport_up Scenario.no_head
              (fun _ => BackendRaises "Unsupported URL" {[ "clip.mp4.part" := 10%Z ]}))
           Scenario.message) ∅ = (Eff.Ok tt, tr) /\
    replies_sent tr = [ReplyText COULD_NOT_DOWNLOAD].
Proof.
  destruct (extraction_error_is_download_failure Scenario.cfg
              (Environment Scenario.transport_up Scenario.no_head
                 (fun _ => BackendRaises "Unsupported URL" {[ "clip.mp4.part" := 10%Z ]}))
              Scenario.message Scenario.youtu_be ∅ "Unsupported URL" _
              message_passes eq_refl)
    as (r & tr & Hrun & _ & _ & _ & (Hr & Hsent) & _).
  exists tr. rewrite <- Hr. split; [exact Hrun|exact Hsent].
Defined.

(** The backend raises and the transport refuses every call: the "couldn't
    download" reply is tried and does not reach the chat, and the handler
    itself ends with an exception, the transport's. *)
Lemma extraction_error_reply_can_be_lost :
  let '(r, tr) :=
    run (handle_message Scenario.cfg
           (Environment Scenario.transport_down Scenario.no_head
              (fun _ => BackendRaises "Unsupported URL" ∅))
           Scenario.message) ∅ in
  extractions tr = [Scenario.youtu_be] /\
  r = Eff.Raised "Timed out" /\
  replies_tried tr = [ReplyText COULD_NOT_DOWNLOAD] /\
  replies_sent tr = [].
Proof. vm_compute. repeat split. Qed.


(** ** The domain gate (C1) *)

Module GateFacts.

Lemma startswith_spec s p :
  Str.startswith s p = true <-> exists post, s = p +:+ post.
Proof.
  revert s. induction p as [|a p IH]; intros s.
  - split; [intros _; by exists s|intros _; by destruct s].
  - destruct s as [|b s]; simpl.
    + split; [done|]. intros [post Hs]. discriminate.
    + destruct (Ascii.eqb_spec a b) as [->|Hne].
      * rewrite IH. split; intros [post Hs]; exists post.
        -- by rewrite StrFacts.app_cons, Hs.
        -- rewrite StrFacts.app_cons in Hs. congruence.
      * split; [done|]. intros [post Hs].
        rewrite StrFacts.app_cons in Hs. congruence.
Qed.

End GateFacts.

(** ** Message texts *)

Module TextFacts.

Lemma lower_concat a b : Text.lower (a ++ b) = Text.lower a ++ Text.lower b.
Proof. apply flat_map_app. Qed.

Lemma eqb_eq a b : Text.eqb a b = true <-> a = b.
Proof.
  revert b. induction a as [|x a IH]; intros [|y b]; simpl; try done.
  rewrite andb_true_iff, N.eqb_eq, IH. split; [by intros [-> ->]|by intros [= -> ->]].
Qed.

(** [s.startswith(p)] holds exactly when [s] is [p] followed by some text. *)
Lemma startswith_prefix s p :
  Text.startswith s p = true <-> exists post, s = p ++ post.
Proof.
  revert s. induction p as [|a p IH]; intros s.
  - split; [intros _; by exists s|intros _; by destruct s].
  - destruct s as [|b s]; simpl.
    + split; [done|]. intros [post Hs]. discriminate.
    + destruct (N.eqb_spec a b) as [->|Hne].
      * rewrite IH. split; intros [post Hs]; exists post; [by rewrite Hs|congruence].
      * split; [done|]. intros [post Hs]. congruence.
Qed.

(** [s.endswith(p)] holds exactly when [s] is some text followed by [p]. *)
Lemma endswith_spec s p :
  Text.endswith s p = true <-> exists pre, s = pre ++ p.
Proof.
  unfold Text.endswith. rewrite andb_true_iff, Nat.leb_le, eqb_eq. split.
  - intros [Hle Hdrop]. exists (take (length s - length p) s).
    rewrite <- Hdrop at 2. by rewrite take_drop.
  - intros [pre ->]. rewrite length_app. split; [lia|].
    apply drop_app_length'. lia.
Qed.

(** [p in s] holds exactly when [s] is some text, [p], and some more text. *)
Lemma contains_spec s p : Text.contains s p = true <-> occurs_in p s.
Proof.
  unfold occurs_in.
  assert (forall s, Text.contains s p =
            Text.startswith s p || match s with
                                   | [] => false
                                   | _ :: s' => Text.contains s' p
                                   end) as Hunfold by by intros [|? ?].
  induction s as [|c s IH]; rewrite Hunfold, orb_true_iff, startswith_prefix.
  - split.
    + intros [[post Hs]|]; [|done]. by exists [], post.
    + intros ([|c pre] & post & Hs); [|discriminate]. left. by exists post.
  - rewrite IH. split.
    + intros [[post Hs]|(pre & post & ->)]; [by exists [], post|].
      by exists (c :: pre), post.
    + intros ([|c' pre] & post & Hs).
      * left. by exists post.
      * right. cbn [app] in Hs. injection Hs as -> ->. by exists pre, post.
Qed.

(** The gate of [handle_message] is the rule "an entry of the list occurs
    somewhere in the lowered url". *)
Lemma domain_gate_spec url :
  domain_gate url = true <->
  exists d : string, In d VIDEO_DOMAINS /\ occurs_in d (Text.lower url).
Proof.
  unfold domain_gate. rewrite existsb_exists.
  split; intros (d & Hd & H); exists d; (split; [done|]); by apply contains_spec.
Qed.

End TextFacts.

(** X2.  What the handler hands to the backend is the first url of the
    message, when the chat is allowed and the url passes [domain_gate], the
    substring test; otherwise nothing. *)
Lemma handler_downloads_what_passes_domain_gate cfg env u files :
  extractions (run (handle_message cfg env u) files).2 =
  match effective_chat u with
  | Some c =>
      if decide (c ∈ WHITELIST cfg) then
        match pick_first_url (text_of u) with
        | Some url => if domain_gate url then [url] else []
        | None => []
        end
      else []
  | None => []
  end.
Proof.
  assert (extractions (run (reject_if_not_whitelisted cfg env u) files).2 = []) as Hrej.
  { unfold run. rewrite reject_if_not_whitelisted_run.
    destruct (not_whitelisted _ _); [destruct (transport env _)|]; done. }
  unfold run in *. rewrite handle_message_run.
  destruct (effective_chat u) as [c|] eqn:Hc.
  - destruct (decide (c ∈ WHITELIST cfg)) as [Hin|Hout].
    + destruct (pick_first_url (text_of u)) as [url|] eqn:Hurl; [|done].
      destruct (domain_gate url) eqn:Hgate; [|done].
      unfold Eff.with_tempdir. cbn [trace fs app].
      destruct (in_workspace_frame cfg env url (fresh (dom files))
                  (State [typing_event env c; MkTemp (fresh (dom files))]
                         (<[fresh (dom files):=∅]> files))) as (r & tr & -> & Htr).
      cbn [trace snd]. unfold extractions. rewrite !omap_app. cbn [app omap].
      unfold typing_event. destruct (transport env (SendChatAction c)); cbn.
      all: rewrite app_nil_r; f_equal.
      all: induction Htr as [|ev tr Hev _ IH]; [done|];
           destruct ev; cbn in *; try discriminate; exact IH.
    + destruct (reject_if_not_whitelisted cfg env u (State [] files)); done.
  - destruct (reject_if_not_whitelisted cfg env u (State [] files)); done.
Qed.

(** Outside ASCII.  The Kelvin sign U+212A lowers to "k", so a url that
    spells "facebook.com" with it passes the gate and is handed to the
    backend.  A link followed by an ideographic space U+3000 ends there, so
    an entry of the list after the space does not count and the message is
    ignored. *)
Example domain_gate_unicode :
  let env :=
    Environment Scenario.transport_up Scenario.no_head (Scenario.downloads 1000) in
  let handed_to_backend text :=
    extractions (run (handle_message Scenario.cfg env (Scenario.from_chat 7 text)) ∅).2 in
  let kelvin : str := of_string "https://faceboo" ++ [0x212A%N] ++ of_string ".com/x" in
  let spaced : str :=
    of_string "https://example.com/p" ++ [0x3000%N] ++ of_string "youtube.com" in
  (domain_gate kelvin = true /\ handed_to_backend kelvin = [kelvin]) /\
  (pick_first_url spaced = Some (of_string "https://example.com/p") /\
   handed_to_backend spaced = []).
Proof. vm_compute. repeat split. Qed.

Example host_matches_subdomain :
  host_matches "https://WWW.YouTube.com:443/watch?v=abc" = true /\
  host_matches "https://youtu.be/abc123" = true /\
  host_matches "https://example.com/cat.jpg" = false.
Proof. repeat split. Qed.

(** C1, at the inputs where the handler departs from the rule.  The host of
    the first url is "notyoutube.com" and the second url names an entry of
    the list only in its query: [host_matches], which implements the host
    rule of the specification, refuses both, but the handler does not call
    it; its own test looks for an entry anywhere in the url, lets both
    through and hands them to the extraction backend. *)
Theorem domain_gate_admits_foreign_hosts :
  let env :=
    Environment Scenario.transport_up Scenario.no_head (Scenario.downloads 1000) in
  let handed_to_backend url :=
    extractions (run (handle_message Scenario.cfg env (Scenario.from_chat 7 url)) ∅).2 in
  let url1 : str := "https://notyoutube.com/watch?v=1" in
  let url2 : str := "https://example.com/watch?next=youtube.com" in
  (Url.hostname url1 = "notyoutube.com" /\ host_matches url1 = false /\
   domain_gate url1 = true /\ handed_to_backend url1 = [url1]) /\
  (Url.hostname url2 = "example.com" /\ host_matches url2 = false /\
   domain_gate url2 = true /\ handed_to_backend url2 = [url2]).
Proof. vm_compute. repeat split. Qed.

(** * Further properties *)

(** ** Reading the environment *)

Module EnvFacts.
Import Env.

Lemma rev_app_app s1 : forall s2 s3,
  String.rev_app s1 (s2 +:+ s3) = String.rev_app s1 s2 +:+ s3.
Proof.
  induction s1 as [|c s1 IH]; intros s2 s3; [done|].
  cbn [String.rev_app]. by rewrite <- IH.
Qed.

Lemma rev_cons c s : String.rev (String c s) = String.rev s +:+ String c "".
Proof.
  unfold String.rev. cbn [String.rev_app].
  by rewrite <- rev_app_app.
Qed.

Lemma rev_app s1 s2 : String.rev (s1 +:+ s2) = String.rev s2 +:+ String.rev s1.
Proof.
  induction s1 as [|c s1 IH].
  - by rewrite StrFacts.app_nil_l, StrFacts.app_nil_r.
  - by rewrite StrFacts.app_cons, !rev_cons, IH, StrFacts.app_assoc.
Qed.

Lemma rev_involutive s : String.rev (String.rev s) = s.
Proof.
  induction s as [|c s IH]; [done|].
  by rewrite rev_cons, rev_app, IH.
Qed.

Lemma all_rev p s : Str.all p (String.rev s) = Str.all p s.
Proof.
  induction s as [|c s IH]; [done|].
  rewrite rev_cons, StrFacts.all_app, IH. simpl. by rewrite andb_true_r, andb_comm.
Qed.

Lemma lstrip_spaces ws t : Str.all Str.is_space ws = true -> lstrip (ws +:+ t) = lstrip t.
Proof.
  induction ws as [|c ws IH]; [done|]. cbn [Str.all]. intros [Hc Hws]%andb_prop.
  rewrite StrFacts.app_cons. cbn [lstrip]. rewrite Hc. auto.
Qed.

Lemma lstrip_head c t : Str.is_space c = false -> lstrip (String c t) = String c t.
Proof. simpl. by intros ->. Qed.


Lemma rev_nil_iff s : String.rev s = "" <-> s = "".
Proof.
  split; [|by intros ->]. destruct s as [|c s]; [done|].
  rewrite rev_cons. by destruct (String.rev s).
Qed.


(** [strip] takes whitespace off both ends of a text that holds none. *)
Lemma strip_padded l core r :
  Str.all Str.is_space l = true -> Str.all Str.is_space r = true ->
  core <> "" -> Str.all Str.not_space core = true ->
  strip (l +:+ core +:+ r) = core.
Proof.
  intros Hl Hr Hne Hcore. unfold strip.
  assert (forall t u, t <> "" -> Str.all Str.not_space t = true -> lstrip (t +:+ u) = t +:+ u)
    as Hkeep.
  { intros [|c t] u Ht Hall; [done|]. simpl in Hall. apply andb_prop in Hall as [Hc _].
    rewrite StrFacts.app_cons. apply lstrip_head. by apply negb_true_iff. }
  rewrite lstrip_spaces, Hkeep, rev_app, lstrip_spaces by (done || by rewrite all_rev).
  rewrite <- (StrFacts.app_nil_r (String.rev core)), Hkeep.
  - by rewrite StrFacts.app_nil_r, rev_involutive.
  - by rewrite rev_nil_iff.
  - by rewrite all_rev.
Qed.

(** *** Decimal numerals *)

Lemma is_nat_pretty_N_char d :
  (d < 10)%N -> Ascii.is_nat (pretty_N_char d) = Some (N.to_nat d).
Proof.
  intros Hd.
  assert (d = 0 \/ d = 1 \/ d = 2 \/ d = 3 \/ d = 4 \/ d = 5 \/ d = 6 \/ d = 7 \/ d = 8 \/ d = 9)%N
    as Hcases by lia.
  repeat (destruct Hcases as [->|Hcases]; [reflexivity|]). by subst.
Qed.

(** A property of the ten digits holds of every character of a numeral. *)
Lemma all_pretty_N_go (p : ascii -> bool) x : forall s,
  (forall d, (d < 10)%N -> p (pretty_N_char d) = true) ->
  Str.all p s = true -> Str.all p (pretty_N_go x s) = true.
Proof.
  induction (N.lt_wf_0 x) as [x _ IH]. intros s Hp Hs.
  destruct (decide (0 < x)%N) as [Hx|Hx].
  - rewrite pretty_N_go_step by done. apply IH; [by apply N.div_lt|done|].
    simpl. rewrite Hs, Hp; [done|]. by apply N.mod_lt.
  - apply N.nlt_ge, N.le_0_r in Hx. by subst.
Qed.

Lemma pretty_N_go_head x : forall s,
  (0 < x)%N ->
  exists c t, pretty_N_go x s = String c t /\ is_Some (Ascii.is_nat c).
Proof.
  induction (N.lt_wf_0 x) as [x _ IH]. intros s Hx.
  rewrite pretty_N_go_step by done.
  destruct (decide (0 < x `div` 10)%N) as [Hdiv|Hdiv].
  - apply IH; [by apply N.div_lt|done].
  - apply N.nlt_ge, N.le_0_r in Hdiv. rewrite Hdiv, pretty_N_go_0.
    eexists _, _. split; [done|]. rewrite is_nat_pretty_N_char; [done|by apply N.mod_lt].
Qed.

(** Reading a numeral back digit by digit. *)
Lemma digits_pretty_N_go x :
  (0 < x)%N ->
  exists k : Z, (0 <= k)%Z /\ forall acc after s,
    digits acc after (pretty_N_go x s) = digits (acc * 10 ^ k + Z.of_N x) true s.
Proof.
  induction (N.lt_wf_0 x) as [x _ IH]. intros Hx.
  assert (Z.of_N x = 10 * Z.of_N (x `div` 10) + Z.of_N (x `mod` 10))%Z as Hsplit.
  { rewrite (N.div_mod x 10) at 1 by done. lia. }
  assert (forall acc after s,
            digits acc after (String (pretty_N_char (x `mod` 10)) s)
            = digits (10 * acc + Z.of_N (x `mod` 10)) true s) as Hlast.
  { intros acc after s. cbn [digits].
    rewrite is_nat_pretty_N_char by by apply N.mod_lt. by rewrite N_nat_Z. }
  destruct (decide (0 < x `div` 10)%N) as [Hdiv|Hdiv].
  - destruct (IH (x `div` 10)%N) as (k & Hk & Hread); [by apply N.div_lt|done|].
    exists (k + 1)%Z. split; [lia|]. intros acc after s.
    rewrite pretty_N_go_step, Hread, Hlast by done. f_equal.
    rewrite Z.pow_add_r, Z.pow_1_r by lia. lia.
  - exists 1%Z. split; [lia|]. intros acc after s.
    rewrite pretty_N_go_step by done.
    apply N.nlt_ge, N.le_0_r in Hdiv. rewrite Hdiv in *.
    rewrite pretty_N_go_0, Hlast. f_equal. rewrite Z.pow_1_r. lia.
Qed.

Lemma digit_not_space d : (d < 10)%N -> Str.not_space (pretty_N_char d) = true.
Proof.
  intros Hd.
  assert (d = 0 \/ d = 1 \/ d = 2 \/ d = 3 \/ d = 4 \/ d = 5 \/ d = 6 \/ d = 7 \/ d = 8 \/ d = 9)%N
    as Hcases by lia.
  repeat (destruct Hcases as [->|Hcases]; [reflexivity|]). by subst.
Qed.

Lemma pretty_positive_unfold (p : positive) : pretty (Z.pos p) = pretty_N_go (N.pos p) "".
Proof. reflexivity. Qed.

Lemma pretty_negative_unfold (p : positive) :
  pretty (Z.neg p) = String "-" (pretty_N_go (N.pos p) "").
Proof. reflexivity. Qed.

(** The decimal text of an integer holds no whitespace and is not empty. *)
Lemma pretty_Z_solid (z : Z) :
  pretty z <> "" /\ Str.all Str.not_space (pretty z) = true.
Proof.
  destruct z as [|p|p].
  - done.
  - rewrite pretty_positive_unfold.
    destruct (pretty_N_go_head (N.pos p) "") as (c & t & Heq & _); [lia|].
    split; [by rewrite Heq|]. apply all_pretty_N_go; [apply digit_not_space|done].
  - rewrite pretty_negative_unfold. split; [done|]. cbn [Str.all].
    rewrite all_pretty_N_go; [done|apply digit_not_space|done].
Qed.

Lemma strip_solid s :
  s <> "" -> Str.all Str.not_space s = true -> strip s = s.
Proof.
  intros Hne Hall.
  rewrite <- (StrFacts.app_nil_r s) at 1.
  by apply (strip_padded "" s "").
Qed.

Lemma int_digit_head c t :
  strip (String c t) = String c t -> is_Some (Ascii.is_nat c) ->
  int (String c t) = digits 0 false (String c t).
Proof.
  intros Hstrip Hc. unfold int. rewrite Hstrip.
  destruct c as [[] [] [] [] [] [] [] []]; try reflexivity;
    by destruct Hc as [? Hc].
Qed.

(** [int] reads back what printing an integer gives. *)
Lemma int_pretty (z : Z) : int (pretty z) = Some z.
Proof.
  destruct (pretty_Z_solid z) as [Hne Hsolid].
  pose proof (strip_solid _ Hne Hsolid) as Hstrip.
  destruct z as [|p|p].
  - reflexivity.
  - rewrite pretty_positive_unfold in *.
    destruct (pretty_N_go_head (N.pos p) "") as (c & t & Heq & Hc); [lia|].
    destruct (digits_pretty_N_go (N.pos p)) as (k & _ & Hread); [lia|].
    rewrite Heq in Hstrip. rewrite Heq, (int_digit_head c t Hstrip Hc), <- Heq, Hread.
    cbn [digits]. f_equal; lia.
  - rewrite pretty_negative_unfold in *. unfold int. rewrite Hstrip.
    destruct (digits_pretty_N_go (N.pos p)) as (k & _ & Hread); [lia|].
    rewrite Hread. cbn [digits fmap option_fmap option_map]. f_equal; lia.
Qed.

(** Whitespace around a numeral does not matter to [int]. *)
Lemma int_padded l (z : Z) r :
  Str.all Str.is_space l = true -> Str.all Str.is_space r = true ->
  int (strip (l +:+ pretty z +:+ r)) = Some z.
Proof.
  intros Hl Hr. destruct (pretty_Z_solid z) as [Hne Hsolid].
  rewrite strip_padded by done. apply int_pretty.
Qed.

(** *** Splitting at commas *)











End EnvFacts.



(** ** More on the streaming downloader *)

Module LoopFacts.
Import Stream.

Lemma total_nil : total [] = 0%Z.
Proof. reflexivity. Qed.

(** When the loop reports success. *)
Lemma consume_ok m broken : forall chunks size written,
  (consume m size written chunks broken).1.1 = true <->
  broken = false /\ ((size + total chunks <= m * (1024 * 1024))%Z \/ total chunks = 0%Z).
Proof.
  induction chunks as [|c chunks IH]; intros size written.
  - cbn. rewrite negb_true_iff. intuition.
  - pose proof (StreamFacts.total_nonneg chunks) as Hrest.
    rewrite StreamFacts.total_cons. destruct c as [|b c].
    + cbn [consume]. rewrite IH. cbn [length]. by rewrite Z.add_0_l.
    + cbn [consume]. destruct (gt_int _ m) eqn:Hgt.
      * apply SizeFacts.gt_int_mb in Hgt. cbn [fst]. cbn [length] in *. split; [done|].
        intros [_ [Hle|Hzero]]; lia.
      * apply SizeFacts.gt_int_mb_false in Hgt. rewrite IH. cbn [length] in *.
        split; intros [-> Hcases]; (split; [done|]); lia.
Qed.

(** What a successful loop returns. *)
Lemma consume_ok_result m broken : forall chunks size written,
  (consume m size written chunks broken).1.1 = true ->
  consume m size written chunks broken =
  ((true, (size + total chunks)%Z), written ++ concat chunks).
Proof.
  induction chunks as [|c chunks IH]; intros size written.
  - cbn. intros ->. by rewrite total_nil, Z.add_0_r, app_nil_r.
  - rewrite StreamFacts.total_cons. destruct c as [|b c].
    + cbn [consume]. intros Hok. rewrite (IH _ _ Hok). cbn [length concat app].
      by rewrite Z.add_0_l.
    + cbn [consume]. destruct (gt_int _ m); [done|]. intros Hok.
      rewrite (IH _ _ Hok). cbn [concat]. by rewrite <- app_assoc, Z.add_assoc.
Qed.

(** What the loop has written and counted, whatever happens: a prefix of the
    body that fits under the ceiling, and a count that runs ahead of it by at
    most the chunk that was refused. *)
Lemma consume_invariant m broken n : forall chunks size written,
  Forall (fun c => length c <= n) chunks ->
  exists more rest,
    (consume m size written chunks broken).2 = written ++ more /\
    concat chunks = more ++ rest /\
    (more = [] \/ (size + Z.of_nat (length more) <= m * (1024 * 1024))%Z) /\
    (size + Z.of_nat (length more) <= (consume m size written chunks broken).1.2
       <= size + Z.of_nat (length more) + Z.of_nat n)%Z /\
    ((consume m size written chunks broken).1.2 <= size + total chunks)%Z.
Proof.
  induction chunks as [|c chunks IH]; intros size written Hbound.
  - exists [], []. cbn. rewrite app_nil_r, total_nil. repeat split; auto; lia.
  - inversion Hbound as [|? ? Hc Hchunks]; subst.
    pose proof (StreamFacts.total_nonneg chunks) as Hrest.
    rewrite StreamFacts.total_cons. destruct c as [|b c].
    + cbn [consume concat app length]. rewrite Z.add_0_l. by apply IH.
    + cbn [consume]. destruct (gt_int _ m) eqn:Hgt.
      * exists [], (concat ((b :: c) :: chunks)). cbn [fst snd length].
        rewrite app_nil_r. repeat split; auto; cbn [length] in *; lia.
      * apply SizeFacts.gt_int_mb_false in Hgt.
        destruct (IH (size + Z.of_nat (length (b :: c)))%Z (written ++ b :: c) Hchunks)
          as (more & rest & Hw & Hcat & Hfit & Hcount & Hmax).
        exists ((b :: c) ++ more), rest. rewrite Hw.
        repeat split.
        -- by rewrite <- app_assoc.
        -- cbn [concat]. by rewrite Hcat, <- app_assoc.
        -- right. destruct Hfit as [->|Hfit]; rewrite length_app; [|lia].
           cbn [length] in *. lia.
        -- rewrite length_app. lia.
        -- rewrite length_app. lia.
        -- lia.
Qed.

End LoopFacts.

(** X6.  The download succeeds exactly when the connection holds and the
    body is empty or no larger than the ceiling; the call then returns the
    size of the body, and the file holds the body, byte for byte. *)
Theorem download_succeeds_iff cfg arrivals broken before :
  let result := Stream.http_get_to_file cfg (Stream.Body arrivals broken) before in
  (result.1.1 = true <->
     broken = false /\
     ((total arrivals <= ceiling cfg)%Z \/ total arrivals = 0%Z)) /\
  (result.1.1 = true ->
     result = ((true, total arrivals), Some (concat arrivals))).
Proof.
  assert (total (Stream.iter_chunked Stream.CHUNK_SIZE arrivals) = total arrivals) as Htotal.
  { unfold total. by rewrite StreamFacts.iter_chunked_concat by apply StreamFacts.CHUNK_SIZE_pos. }
  cbn zeta. unfold Stream.http_get_to_file.
  pose proof (LoopFacts.consume_ok (MAX_SIZE_MB cfg) broken
                (Stream.iter_chunked Stream.CHUNK_SIZE arrivals) 0 []) as Hok.
  pose proof (LoopFacts.consume_ok_result (MAX_SIZE_MB cfg) broken
                (Stream.iter_chunked Stream.CHUNK_SIZE arrivals) 0 []) as Hres.
  destruct (Stream.consume _ _ _ _ _) as [[ok size] written]. cbn [fst snd] in *.
  rewrite Htotal, Z.add_0_l in *. split; [exact Hok|].
  intros ->. specialize (Hres eq_refl). injection Hres as -> ->.
  by rewrite StreamFacts.iter_chunked_concat by apply StreamFacts.CHUNK_SIZE_pos.
Qed.

(** X7.  Whatever the server does, what the call leaves in the file is the
    beginning of the body, it is never longer than the ceiling, and the size
    returned is at least what was written, at most one chunk of 16 KB more,
    and never more than the body.  When the request fails before the body,
    the call returns failure and size 0 and does not touch the file. *)
Theorem download_never_writes_past_ceiling cfg (r : Stream.response) before :
  let result := Stream.http_get_to_file cfg r before in
  match r with
  | Stream.Body arrivals broken =>
      exists written more,
        result.2 = Some written /\
        concat arrivals = written ++ more /\
        (Z.of_nat (length written) <= Z.max 0 (ceiling cfg))%Z /\
        (Z.of_nat (length written) <= result.1.2
           <= Z.of_nat (length written) + 16 * 1024)%Z /\
        (result.1.2 <= total arrivals)%Z
  | _ => result = ((false, 0%Z), before)
  end.
Proof.
  destruct r as [| |arrivals broken]; [done..|].
  cbn zeta. unfold Stream.http_get_to_file.
  destruct (LoopFacts.consume_invariant (MAX_SIZE_MB cfg) broken Stream.CHUNK_SIZE
              (Stream.iter_chunked Stream.CHUNK_SIZE arrivals) 0 []
              (StreamFacts.iter_chunked_bound _ _))
    as (more & rest & Hw & Hcat & Hfit & Hcount & Hmax).
  rewrite StreamFacts.iter_chunked_concat in Hcat by apply StreamFacts.CHUNK_SIZE_pos.
  assert (total (Stream.iter_chunked Stream.CHUNK_SIZE arrivals) = total arrivals) as Htotal.
  { unfold total. by rewrite StreamFacts.iter_chunked_concat by apply StreamFacts.CHUNK_SIZE_pos. }
  rewrite Htotal, StreamFacts.CHUNK_SIZE_16K in *.
  destruct (Stream.consume _ _ _ _ _) as [[ok size] written]. cbn [fst snd app] in *.
  subst written. exists more, rest. repeat split; try done; try lia.
  unfold ceiling. destruct Hfit as [->|Hfit]; cbn [length]; lia.
Qed.

(** ** The whole transcript of the handler *)

Section Transcript.

Context (cfg : config) (env : environment).

(** Every run of the handler, written out: what it returns and the events
    it leaves, by the chat, the text, the backend and the transport. *)
Lemma run_handle_message u files :
  run (handle_message cfg env u) files =
  let say a :=
    match transport env a with
    | None => (Eff.Ok tt, [Sent a])
    | Some err => (Eff.Raised err, [Failed a err])
    end in
  let rejected :=
    (Eff.Ok tt,
     match transport env (ReplyText NOT_ALLOWED) with
     | None =>
         [Sent (ReplyText NOT_ALLOWED);
          Logged ("Rejected message from non-whitelisted chat "
                    +:+ Fmt.opt_int (effective_chat u))]
     | Some err => [Failed (ReplyText NOT_ALLOWED) err]
     end) in
  match effective_chat u with
  | Some c =>
      if decide (c ∈ WHITELIST cfg) then
        match pick_first_url (text_of u) with
        | Some url =>
            if domain_gate url then
              let td := fresh (dom files) in
              let '(r, tr) :=
                match produced (backend env url) with
                | None => say (ReplyText COULD_NOT_DOWNLOAD)
                | Some (name, size) =>
                    if gt_int (bytes_to_mb size) (MAX_SIZE_MB cfg)
                    then say (ReplyText (too_large cfg size))
                    else
                      match transport env (ReplyVideo (td, name)) with
                      | None => (Eff.Ok tt, [Sent (ReplyVideo (td, name))])
                      | Some e1 =>
                          let tr1 :=
                            [Failed (ReplyVideo (td, name)) e1;
                             Logged ("Failed to send as video: " +:+ e1)] in
                          match transport env (ReplyDocument (td, name)) with
                          | None => (Eff.Ok tt, tr1 ++ [Sent (ReplyDocument (td, name))])
                          | Some e2 =>
                              let '(r, tr) := say (ReplyText (upload_failed e2)) in
                              (r, tr1 ++ [Failed (ReplyDocument (td, name)) e2] ++ tr)
                          end
                      end
                end in
              (r, [typing_event env c; MkTemp td; Head url; Extract url td]
                    ++ tr ++ [RmTree td])
            else (Eff.Ok tt, [])
        | None => (Eff.Ok tt, [])
        end
      else rejected
  | None => rejected
  end.
Proof.
  cbn zeta.
  assert (run (fun st => (Eff.Ok tt, (reject_if_not_whitelisted cfg env u st).2)) files =
          (Eff.Ok tt,
           if not_whitelisted cfg (effective_chat u) then
             match transport env (ReplyText NOT_ALLOWED) with
             | None =>
                 [Sent (ReplyText NOT_ALLOWED);
                  Logged ("Rejected message from non-whitelisted chat "
                            +:+ Fmt.opt_int (effective_chat u))]
             | Some err => [Failed (ReplyText NOT_ALLOWED) err]
             end
           else [])) as Hrej.
  { unfold run. rewrite reject_if_not_whitelisted_run.
    destruct (not_whitelisted _ _); [by destruct (transport env _)|done]. }
  unfold run in *. rewrite handle_message_run.
  destruct (effective_chat u) as [c|] eqn:Hc; [|exact Hrej].
  destruct (decide (c ∈ WHITELIST cfg)) as [Hin|Hout].
  2: { rewrite Hrej. cbn [not_whitelisted]. by rewrite bool_decide_eq_true_2. }
  clear Hrej.
  destruct (pick_first_url (text_of u)) as [url|]; [|done].
  destruct (domain_gate url); [|done].
  unfold Eff.with_tempdir. cbn [trace fs app]. rewrite in_workspace_run.
  destruct (produced (backend env url)) as [[name size]|] eqn:Hprod.
  - destruct (gt_int _ _).
    + rewrite call_run. unfold after_download. cbn [trace fs app].
      by destruct (transport env _).
    + rewrite (deliver_run env (fresh (dom files), name) _ size)
        by by apply produced_file.
      unfold after_download. cbn [trace fs app].
      repeat (destruct (transport env _); cbn [trace fs app]); done.
  - rewrite call_run. unfold after_download. cbn [trace fs app].
    by destruct (transport env _).
Qed.

End Transcript.

Local Ltac transcript_cases env u c url name sz :=
  rewrite run_handle_message; cbn zeta;
  destruct (effective_chat u) as [c|] eqn:?;
    [destruct (decide (c ∈ _)) as [?|?];
     [destruct (pick_first_url (text_of u)) as [url|] eqn:?;
      [destruct (domain_gate url) eqn:?;
       [destruct (produced (backend env url)) as [[name sz]|] eqn:?;
        [destruct (gt_int (bytes_to_mb sz) _) eqn:?|]|]|]|]|].

Local Ltac split_transport :=
  repeat match goal with
    | |- context [transport ?e (ReplyVideo ?p)] =>
        destruct (transport e (ReplyVideo p)) eqn:?
    | |- context [transport ?e (ReplyDocument ?p)] =>
        destruct (transport e (ReplyDocument p)) eqn:?
    | |- context [transport ?e (ReplyText ?t)] =>
        destruct (transport e (ReplyText t)) eqn:?
    end;
  unfold typing_event;
  repeat match goal with
    | |- context [transport ?e (SendChatAction ?c)] =>
        destruct (transport e (SendChatAction c)) eqn:?
    end.

(** X8.  However a message is handled, at most one reply reaches the chat.
    An exception leaves the handler only for a message that passed the three
    gates, only from a text reply the transport refused, which is then the
    last call made, and then no reply has reached the chat at all.  A message
    that passed the gates and was handled without an exception got exactly
    one reply. *)
Theorem at_most_one_reply_reaches_the_chat cfg env u files :
  let r := (run (handle_message cfg env u) files).1 in
  let tr := (run (handle_message cfg env u) files).2 in
  length (replies_sent tr) <= 1 /\
  (forall err, r = Eff.Raised err ->
     replies_sent tr = [] /\
     (exists url, passes_gates cfg u url) /\
     exists text,
       last (attempts tr) = Some (ReplyText text) /\
       transport env (ReplyText text) = Some err) /\
  (forall url, passes_gates cfg u url -> r = Eff.Ok tt -> length (replies_sent tr) = 1).
Proof.
  cbn zeta. transcript_cases env u c url name sz.
  all: split_transport.
  all: cbn [fst snd app replies_sent deliveries attempts omap list_omap List.filter
            is_reply length last].
  all: (split; [lia|split]).
  all: try (intros err [= <-]; split; [done|split; [|eauto]];
            exists url; split; [eauto|done]).
  all: try (intros ? [=]; fail).
  all: try (intros ? _ _; reflexivity).
  all: try (intros ? _ [=]; fail).
  all: intros url' ((c' & Hc' & Hin') & Hurl' & Hgate') _; congruence.
Qed.

(** X9.  The handler stays entirely silent (no call to the transport, no
    log line, no request, no scratch directory) exactly when the chat is on
    the allow-list and the message has no URL or its first URL fails the
    domain test; it then returns normally.  Every other message leaves at
    least one event. *)
Theorem handler_is_silent_iff cfg env u files :
  let r := (run (handle_message cfg env u) files).1 in
  let tr := (run (handle_message cfg env u) files).2 in
  (tr = [] <->
     (exists c, effective_chat u = Some c /\ c ∈ WHITELIST cfg) /\
     match pick_first_url (text_of u) with
     | Some url => domain_gate url = false
     | None => True
     end) /\
  (tr = [] -> r = Eff.Ok tt).
Proof.
  cbn zeta. transcript_cases env u c url name sz.
  all: split_transport.
  all: cbn [fst snd app].
  all: (split; [split|]); try discriminate; try done.
  all: try (intros [(c' & Hc' & Hin') Hgate]; congruence).
  all: intros _; split; [eauto|done].
Qed.

(** X10.  The answer to the HEAD request and the fate of the typing
    indicator have no influence on what the handler does next: two worlds
    with the same backend, whose transports treat every reply alike, give
    the same result, the same replies tried and delivered, the same log and
    the same extractions, whatever their HEAD answers and whether or not
    they take the typing indicator. *)
Theorem head_and_typing_do_not_matter cfg env env' u files :
  (forall a, is_reply a = true -> transport env' a = transport env a) ->
  (forall url, backend env' url = backend env url) ->
  let out := run (handle_message cfg env u) files in
  let out' := run (handle_message cfg env' u) files in
  out'.1 = out.1 /\
  replies_tried out'.2 = replies_tried out.2 /\
  replies_sent out'.2 = replies_sent out.2 /\
  log_lines out'.2 = log_lines out.2 /\
  extractions out'.2 = extractions out.2.
Proof.
  intros Htransport Hbackend. cbn zeta.
  rewrite (run_handle_message cfg env'), (run_handle_message cfg env). cbn zeta.
  destruct (effective_chat u) as [c|];
    [destruct (decide (c ∈ _));
     [destruct (pick_first_url (text_of u)) as [url|];
      [destruct (domain_gate url);
       [rewrite Hbackend;
        destruct (produced (backend env url)) as [[name sz]|];
        [destruct (gt_int (bytes_to_mb sz) _)|]|]|]|]|];
    rewrite ?(Htransport (ReplyText _)), ?(Htransport (ReplyVideo _)),
      ?(Htransport (ReplyDocument _)) by done;
    repeat match goal with
      | |- context [transport env (ReplyVideo ?p)] =>
          destruct (transport env (ReplyVideo p)) eqn:?
      | |- context [transport env (ReplyDocument ?p)] =>
          destruct (transport env (ReplyDocument p)) eqn:?
      end;
    rewrite ?(Htransport (ReplyText _)) by done;
    split_transport; done.
Qed.

Lemma head_and_typing_do_not_matter_witness :
  let env :=
    Environment Scenario.transport_up Scenario.no_head (Scenario.downloads 1000) in
  let env' :=
    Environment (fun a => match a with SendChatAction _ => Some "Timed out" | _ => None end)
      (fun _ => Some (Some "video/mp4")) (Scenario.downloads 1000) in
  let out := run (handle_message Scenario.cfg env Scenario.message) ∅ in
  let out' := run (handle_message Scenario.cfg env' Scenario.message) ∅ in
  out'.1 = out.1 /\
  replies_tried out'.2 = replies_tried out.2 /\
  replies_sent out'.2 = replies_sent out.2 /\
  log_lines out'.2 = log_lines out.2 /\
  extractions out'.2 = extractions out.2.
Proof.
  apply (head_and_typing_do_not_matter Scenario.cfg
           (Environment Scenario.transport_up Scenario.no_head (Scenario.downloads 1000))
           (Environment
              (fun a => match a with SendChatAction _ => Some "Timed out" | _ => None end)
              (fun _ => Some (Some "video/mp4")) (Scenario.downloads 1000))
           Scenario.message ∅).
  - intros [text|file|file|c] Hreply; [reflexivity..|discriminate].
  - reflexivity.
Defined.


(** ** What the extractor returns *)

Module PickFacts.

Lemma is_url_no_space u : is_url u -> forallb Text.not_space u = true.
Proof.
  intros (h & t1 & t2 & p & s & rest & -> & Hh & Ht1 & Ht2 & Hp & Hs & _ & Hrest).
  rewrite !forallb_app, Hrest.
  destruct Hh as [-> | ->], Ht1 as [-> | ->], Ht2 as [-> | ->], Hp as [-> | ->],
    Hs as [-> | [-> | [-> | ->]]]; reflexivity.
Qed.

Lemma is_url_nonempty u : is_url u -> u <> [].
Proof. by intros (h & t1 & t2 & p & s & rest & -> & _). Qed.

Lemma picked_is_url text url : pick_first_url text = Some url -> is_url url.
Proof.
  unfold pick_first_url. destruct text as [|c text]; [discriminate|].
  intros (pre & post & _ & Hu & _)%RegexFacts.search_some.
  by apply UrlPattern.matches_url.
Qed.

(** On a text that is a URL, the search returns all of it. *)
Lemma pick_first_url_is_url u : is_url u -> pick_first_url u = Some u.
Proof.
  intros Hu. pose proof (is_url_no_space u Hu) as Hclean.
  unfold pick_first_url.
  destruct u as [|c0 u]; [by destruct (is_url_nonempty [] Hu)|].
  rewrite RegexFacts.search_unfold.
  destruct (RegexFacts.rmatch_complete URL_REGEX _ (proj2 (UrlPattern.matches_url _) Hu)
              Some [] [] eq_refl) as [rest Hrest].
  rewrite app_nil_r in Hrest. rewrite Hrest.
  destruct (UrlPattern.url_match_stops _ _ Hrest) as [->|(c & t & -> & Hc)].
  - by rewrite Nat.sub_0_r, firstn_all.
  - destruct (RegexFacts.rmatch_sound _ _ _ _ Hrest) as (u0 & rest' & Hsplit & _ & [= ->]).
    rewrite Hsplit, forallb_app in Hclean.
    apply andb_prop in Hclean as [_ Hclean]. cbn [forallb] in Hclean.
    unfold Text.not_space in Hclean at 1. by rewrite Hc in Hclean.
Qed.

End PickFacts.

(** X12.  A URL the extractor returns holds no whitespace character, inside
    or outside ASCII, and the extractor returns it unchanged when it is given
    that URL alone: extracting twice is extracting once. *)
Theorem picked_url_is_picked_again text url :
  pick_first_url text = Some url ->
  forallb Text.not_space url = true /\
  pick_first_url url = Some url.
Proof.
  intros Hurl%PickFacts.picked_is_url. split.
  - by apply PickFacts.is_url_no_space.
  - by apply PickFacts.pick_first_url_is_url.
Qed.

Lemma picked_url_is_picked_again_witness :
  forallb Text.not_space (of_string "https://youtu.be/abc123") = true /\
  pick_first_url (of_string "https://youtu.be/abc123")
    = Some (of_string "https://youtu.be/abc123").
Proof.
  apply (picked_url_is_picked_again
           (of_string "check this out https://youtu.be/abc123" ++ [0x3000%N]
              ++ of_string "and more")).
  reflexivity.
Defined.

(** ** The host of a URL is a piece of the URL *)

Module HostFacts.
Import Url.

Lemma occurs_in_refl s : occurs_in s s.
Proof. exists [], []. by rewrite app_nil_r. Qed.

Lemma occurs_in_trans a b c : occurs_in a b -> occurs_in b c -> occurs_in a c.
Proof.
  intros (p1 & q1 & ->) (p2 & q2 & ->). exists (p2 ++ p1), (q1 ++ q2).
  by rewrite <- !app_assoc.
Qed.

Lemma occurs_in_prefix a b : occurs_in a (a ++ b).
Proof. by exists [], b. Qed.

Lemma occurs_in_suffix a b : occurs_in b (a ++ b).
Proof. exists a, []. by rewrite app_nil_r. Qed.

Lemma occurs_in_cons c a b : occurs_in a b -> occurs_in a (c :: b).
Proof. intros (p & q & ->). by exists (c :: p), q. Qed.

Lemma occurs_in_empty s : occurs_in [] s.
Proof. by exists [], s. Qed.

Lemma occurs_in_lower a b : occurs_in a b -> occurs_in (Text.lower a) (Text.lower b).
Proof.
  intros (p & q & ->). exists (Text.lower p), (Text.lower q).
  by rewrite !TextFacts.lower_concat.
Qed.

(** [partition] cuts the text at the first separator. *)
Lemma partition_split c s :
  s = (partition c s).1.1 ++
      (if (partition c s).1.2 then c :: (partition c s).2 else []).
Proof.
  induction s as [|a s IH]; [done|]. cbn [partition].
  destruct (N.eqb_spec a c) as [->|_]; [done|].
  destruct (partition c s) as [[x found] y]. cbn [fst snd app] in *.
  by rewrite <- IH.
Qed.

Lemma partition_before c s : occurs_in (partition c s).1.1 s.
Proof. rewrite (partition_split c s) at 2. apply occurs_in_prefix. Qed.

Lemma partition_not_found c s :
  (partition c s).1.2 = false -> (partition c s).2 = [].
Proof.
  induction s as [|a s IH]; [done|]. cbn [partition].
  destruct (a =? c)%N; [done|].
  by destruct (partition c s) as [[x found] y].
Qed.

Lemma partition_after c s : occurs_in (partition c s).2 s.
Proof.
  destruct ((partition c s).1.2) eqn:Hfound.
  - rewrite (partition_split c s) at 2. rewrite Hfound.
    eapply occurs_in_trans; [|apply occurs_in_suffix].
    apply occurs_in_cons, occurs_in_refl.
  - rewrite partition_not_found by done. apply occurs_in_empty.
Qed.

Lemma after_last_suffix c s : exists pre, s = pre ++ after_last c s.
Proof.
  induction s as [|a s [pre IH]]; [by exists []|]. cbn [after_last].
  destruct (partition c s) as [[x found] y]. destruct found.
  - exists (a :: pre). cbn [app]. by rewrite <- IH.
  - destruct (a =? c)%N; [by exists [a]|by exists []].
Qed.

Lemma span_until_split stop s :
  s = (Text.span_until stop s).1 ++ (Text.span_until stop s).2.
Proof.
  induction s as [|a s IH]; [done|]. cbn [Text.span_until].
  destruct (stop a); [done|].
  destruct (Text.span_until stop s) as [x y]. cbn [fst snd app] in *.
  by rewrite <- IH.
Qed.

Lemma lstrip_if_suffix p s : exists pre, s = pre ++ lstrip_if p s.
Proof.
  induction s as [|a s [pre IH]]; [by exists []|]. cbn [lstrip_if].
  destruct (p a); [|by exists []].
  exists (a :: pre). cbn [app]. by rewrite <- IH.
Qed.

Lemma remove_if_none p s :
  forallb (fun c => negb (p c)) s = true -> remove_if p s = s.
Proof.
  induction s as [|a s IH]; [done|]. cbn [forallb remove_if].
  intros [Ha Hs]%andb_prop. apply negb_true_iff in Ha. by rewrite Ha, IH.
Qed.

Lemma forallb_impl (p q : N -> bool) s :
  (forall c, p c = true -> q c = true) -> forallb p s = true -> forallb q s = true.
Proof.
  intros Hpq. induction s as [|a s IH]; [done|]. cbn [forallb].
  intros [Ha Hs]%andb_prop. by rewrite (Hpq a Ha), IH.
Qed.

Lemma drop_scheme_suffix url : exists pre, url = pre ++ drop_scheme url.
Proof.
  unfold drop_scheme. pose proof (partition_split 58 url) as Hsplit.
  destruct (partition 58 url) as [[pre found] post]. cbn [fst snd] in Hsplit.
  destruct pre as [|a pre]; [by exists []|].
  destruct (found && is_alpha a && forallb scheme_char (a :: pre)) eqn:Hscheme;
    [|by exists []].
  destruct found; [|done].
  exists ((a :: pre) ++ [58%N]). by rewrite <- app_assoc.
Qed.

(** Tab, line feed and carriage return, which [urlsplit] drops, are
    whitespace. *)
Lemma not_space_kept c :
  Text.not_space c = true -> negb ((c =? 9) || (c =? 10) || (c =? 13))%N = true.
Proof.
  intros Hc.
  destruct (N.eqb_spec c 9) as [->|_]; [discriminate Hc|].
  destruct (N.eqb_spec c 10) as [->|_]; [discriminate Hc|].
  destruct (N.eqb_spec c 13) as [->|_]; [discriminate Hc|]. done.
Qed.

(** Without whitespace in the url the network location is a piece of the
    url as it stands. *)
Lemma netloc_occurs url :
  forallb Text.not_space url = true -> occurs_in (netloc url) url.
Proof.
  intros Hclean. unfold netloc.
  destruct (lstrip_if_suffix (fun c => (c <=? 32)%N) url) as [pre1 Hstrip].
  set (url1 := lstrip_if _ url) in *.
  assert (forallb Text.not_space url1 = true) as Hclean1.
  { rewrite Hstrip, forallb_app in Hclean. by apply andb_prop in Hclean as [_ ?]. }
  rewrite remove_if_none by (eapply forallb_impl; [apply not_space_kept|done]).
  destruct (drop_scheme_suffix url1) as [pre2 Hdrop].
  assert (occurs_in (drop_scheme url1) url) as Hrest.
  { apply (occurs_in_trans _ url1).
    - exists pre2, []. by rewrite app_nil_r.
    - exists pre1, []. by rewrite app_nil_r. }
  destruct (drop_scheme url1) as [|a [|b rest]]; try apply occurs_in_empty.
  destruct ((a =? 47) && (b =? 47))%N; [|apply occurs_in_empty].
  eapply occurs_in_trans; [|exact Hrest].
  do 2 apply occurs_in_cons.
  rewrite (span_until_split (fun c => ((c =? 47) || (c =? 63) || (c =? 35))%N) rest) at 2.
  apply occurs_in_prefix.
Qed.

Lemma hostname_occurs url :
  forallb Text.not_space url = true -> occurs_in (hostname url) url.
Proof.
  intros Hclean. eapply occurs_in_trans; [|by apply netloc_occurs].
  unfold hostname. destruct (after_last_suffix 64 (netloc url)) as [pre Hlast].
  set (hostinfo := after_last 64 (netloc url)) in *.
  apply (occurs_in_trans _ hostinfo); [|exists pre, []; by rewrite app_nil_r].
  pose proof (partition_after 91 hostinfo) as Hbracket.
  destruct (partition 91 hostinfo) as [[before have_open_br] bracketed].
  cbn [fst snd] in Hbracket. destruct have_open_br.
  - eapply occurs_in_trans; [apply partition_before|exact Hbracket].
  - apply partition_before.
Qed.

(** An allowed host holds the entry that allows it. *)
Lemma host_allowed_occurs host d : host_allowed host d = true -> occurs_in d host.
Proof.
  unfold host_allowed.
  intros [Heq%TextFacts.eqb_eq|[pre ->]%TextFacts.endswith_spec]%orb_true_iff.
  - subst. apply occurs_in_refl.
  - eapply occurs_in_trans; [|apply occurs_in_suffix].
    apply occurs_in_cons, occurs_in_refl.
Qed.

(** The entries of the list are in lower case already. *)
Lemma VIDEO_DOMAINS_lower :
  map (fun d : string => Text.lower d) VIDEO_DOMAINS = map of_string VIDEO_DOMAINS.
Proof. vm_compute. reflexivity. Qed.

(** The host test is the stricter one on a url without whitespace. *)
Lemma host_matches_domain_gate url :
  forallb Text.not_space url = true -> host_matches url = true -> domain_gate url = true.
Proof.
  intros Hclean. unfold host_matches. rewrite VIDEO_DOMAINS_lower.
  destruct (existsb _ _) eqn:Hex; [intros _|done].
  apply existsb_exists in Hex as (d' & Hd & Hallowed%host_allowed_occurs).
  apply in_map_iff in Hd as (d & <- & Hd).
  apply TextFacts.domain_gate_spec. exists d. split; [done|].
  eapply occurs_in_trans; [exact Hallowed|].
  by apply occurs_in_lower, hostname_occurs.
Qed.

End HostFacts.

(** X13.  The test the handler applies is never stricter than [host_matches]:
    a URL returned by the extractor that [host_matches] accepts also passes
    the handler's substring test, and so, for an allowed chat, is handed to
    the backend.  The URL is taken to be one that [urlsplit] parses without
    raising: all ASCII and without square brackets. *)
Theorem host_matches_implies_domain_gate cfg env u files url :
  (exists c, effective_chat u = Some c /\ c ∈ WHITELIST cfg) ->
  pick_first_url (text_of u) = Some url ->
  plain_url url = true ->
  host_matches url = true ->
  domain_gate url = true /\
  passes_gates cfg u url /\
  extractions (run (handle_message cfg env u) files).2 = [url].
Proof.
  intros Hchat Hurl _ Hhost.
  assert (domain_gate url = true) as Hgate.
  { apply HostFacts.host_matches_domain_gate; [|done].
    by eapply PickFacts.is_url_no_space, PickFacts.picked_is_url. }
  split; [done|]. split; [done|].
  destruct (run_passes cfg env u url files) as (c & Hc & ->); [done|].
  cbn zeta.
  destruct (produced (backend env url)) as [[name sz]|] eqn:Hprod;
    [destruct (gt_int _ _)|].
  2: rewrite (deliver_run env (fresh (dom files), name) _ sz)
       by exact (produced_file env url _
                   (State [typing_event env c; MkTemp _] (<[_ := ∅]> files)) name sz Hprod).
  all: rewrite ?call_run; repeat (destruct (transport _ _); cbn zeta);
       cbn [trace app]; unfold typing_event; by destruct (transport _ _).
Qed.

Lemma host_matches_implies_domain_gate_witness :
  domain_gate Scenario.youtu_be = true /\
  passes_gates Scenario.cfg Scenario.message Scenario.youtu_be /\
  extractions
    (run (handle_message Scenario.cfg
            (Environment Scenario.transport_up Scenario.no_head (Scenario.downloads 1000))
            Scenario.message) ∅).2 = [Scenario.youtu_be].
Proof.
  apply (host_matches_implies_domain_gate Scenario.cfg
           (Environment Scenario.transport_up Scenario.no_head (Scenario.downloads 1000))
           Scenario.message ∅ Scenario.youtu_be).
  - exists 7%Z. split; [reflexivity|]. unfold Scenario.cfg. cbn [WHITELIST].
    by apply elem_of_singleton_2.
  - reflexivity.
  - reflexivity.
  - reflexivity.
Defined.

(** ** The content-type test *)

Lemma lower_split s : forall a b,
  Str.lower s = a +:+ b ->
  exists t rest, s = t +:+ rest /\ Str.lower t = a /\ Str.lower rest = b.
Proof.
  induction s as [|c s IH]; intros [|x a] b Hs.
  - by exists "", "".
  - discriminate.
  - by exists "", (String c s).
  - rewrite StrFacts.app_cons in Hs. cbn [Str.lower] in Hs. injection Hs as Hc Hs.
    destruct (IH _ _ Hs) as (t & rest & -> & Ht & Hrest).
    exists (String c t), rest. cbn [Str.lower]. by rewrite Hc, Ht.
Qed.

(** X14.  [_is_video_content_type] accepts exactly the content types that
    begin with "video/" in any mix of cases, parameters and all; a missing
    header and the empty string are refused. *)
Theorem is_video_content_type_iff (ct : option string) :
  is_video_content_type ct = true <->
  exists t rest, ct = Some (t +:+ rest) /\ Str.lower t = "video/".
Proof.
  destruct ct as [s|]; cbn [is_video_content_type].
  - rewrite andb_true_iff, negb_true_iff, GateFacts.startswith_spec. split.
    + intros [_ [post Hs]]. destruct (lower_split _ _ _ Hs) as (t & rest & -> & Ht & _).
      by exists t, rest.
    + intros (t & rest & [= ->] & Ht). split.
      * destruct t; [discriminate|done].
      * exists (Str.lower rest). by rewrite StrFacts.lower_app, Ht.
  - split; [done|]. by intros (t & rest & Hct & _).
Qed.

(** ** The size shown in the "too large" reply *)

(** X16.  The size the "too large" reply shows is never below the limit
    shown next to it: for a file above the ceiling, the whole number of MB
    before the decimal point is at least [MAX_SIZE_MB] (the two can be equal,
    as in "50.0 MB" against a limit of 50 MB). *)
Theorem too_large_shows_at_least_the_limit cfg size :
  (0 <= size)%Z ->
  (ceiling cfg < size)%Z ->
  let t := Fmt.tenths (bytes_to_mb size) in
  too_large cfg size =
    "⚠️ File is too large (" +:+ (pretty (t / 10)%Z +:+ "." +:+ pretty (t mod 10)%Z)
      +:+ " MB). Limit is " +:+ pretty (MAX_SIZE_MB cfg) +:+ " MB." /\
  (MAX_SIZE_MB cfg <= t / 10)%Z /\ (0 <= t mod 10 < 10)%Z.
Proof.
  intros Hsize Hbig. cbn zeta. split; [done|].
  split; [|by apply Z.mod_pos_bound].
  apply Z.div_le_lower_bound; [done|].
  unfold ceiling in Hbig. unfold Fmt.tenths.
  assert (Qnum (bytes_to_mb size) = size /\
          Zpos (Qden (bytes_to_mb size)) = 1048576)%Z as [-> ->].
  { unfold bytes_to_mb. change (1024 * 1024)%Z with 1048576%Z.
    unfold Qdiv, Qmult, Qinv, inject_Z. cbn [Qnum Qden]. split; [lia|done]. }
  assert (10 * MAX_SIZE_MB cfg <= 10 * size / 1048576)%Z as Hq
    by (apply Z.div_le_lower_bound; lia).
  repeat match goal with
         | |- context [Z.ltb ?a ?b] => destruct (Z.ltb a b)
         | |- context [Z.even ?a] => destruct (Z.even a)
         end; lia.
Qed.

Lemma too_large_shows_at_least_the_limit_witness :
  let t := Fmt.tenths (bytes_to_mb (50 * 1024 * 1024 + 1)) in
  too_large Scenario.cfg (50 * 1024 * 1024 + 1) =
    "⚠️ File is too large (" +:+ (pretty (t / 10)%Z +:+ "." +:+ pretty (t mod 10)%Z)
      +:+ " MB). Limit is " +:+ pretty (MAX_SIZE_MB Scenario.cfg) +:+ " MB." /\
  (MAX_SIZE_MB Scenario.cfg <= t / 10)%Z /\ (0 <= t mod 10 < 10)%Z.
Proof.
  apply (too_large_shows_at_least_the_limit Scenario.cfg (50 * 1024 * 1024 + 1));
    unfold ceiling; cbn [MAX_SIZE_MB Scenario.cfg]; lia.
Defined.
